(** * Product catalog merger ([script.py]): column reconciliation, filter
    extraction, duplicate merge and sort.

    The development embeds the pure part of [script.py].

    - A Python [str] is the list of its code points.  [str.strip] removes
      the characters of [str.isspace]; [str.lower] is modelled on Basic
      Latin and on the Cyrillic capitals, the alphabets of the script's
      constants.
    - A cell of a frame is a text or the missing value [np.nan].  A sheet
      as [pd.read_excel] returns it may also hold numbers, booleans and
      dates ([scalar]); such a sheet has no frame here ([frames_of]), for
      pandas converts, orders and compares these values in ways of its own
      (numbers are widened to floats next to a missing value, keys are
      ordered by value, a number is not comparable with a text).  The
      theorems about whole runs are stated for sheets of texts and blanks.
    - A [pd.DataFrame] is the list of its column labels with its rows, one
      cell per column.  The functions on frames are those of pandas for
      frames with distinct labels; two headers of one sheet that are equal
      once stripped make the script raise, and the theorems about whole
      runs are stated for sheets without such headers ([distinct_headers]).
    - The pandas calls ([pd.concat], column assignment, [DataFrame.apply],
      [groupby(...).agg], [sort_values]) are written out as list functions
      after their behaviour with the arguments the script gives; the default
      sorting routine of [sort_values] is numpy's quicksort, written out
      as well.
    - Exceptions are values of [result]; the log is a list of records.
    - Reading and writing of the spreadsheet files stay outside:
      [load_data] receives, per file found, what [pd.read_excel] returned or
      that it raised, and [process_catalog] returns the frame it hands to
      [to_excel], whose success is taken for granted, with the log. *)

From Stdlib Require Import String Ascii.
From stdpp Require Import base decidable option numbers list sorting.

Open Scope N_scope.

(** ** Python strings *)

(** A Python [str]: the list of its code points. *)
Definition pystr : Type := list N.

(** Code points of a UTF-8 byte sequence; it lets the constants of the
    script be written as the literals they are in the source. *)
Fixpoint utf8_decode (bs : list N) : pystr :=
  match bs with
  | [] => []
  | b :: rest =>
    if b <? 128 then b :: utf8_decode rest
    else if b <? 224 then
      match rest with
      | c1 :: rest1 => ((b - 192) * 64 + (c1 - 128)) :: utf8_decode rest1
      | [] => []
      end
    else if b <? 240 then
      match rest with
      | c1 :: c2 :: rest2 =>
        ((b - 224) * 4096 + (c1 - 128) * 64 + (c2 - 128)) :: utf8_decode rest2
      | _ => []
      end
    else
      match rest with
      | c1 :: c2 :: c3 :: rest3 =>
        ((b - 240) * 262144 + (c1 - 128) * 4096 + (c2 - 128) * 64 + (c3 - 128))
          :: utf8_decode rest3
      | _ => []
      end
  end.

Definition u (s : string) : pystr :=
  utf8_decode (map N_of_ascii (list_ascii_of_string s)).

(** [str.isspace] for one code point: the characters [str.strip()] removes. *)
Definition isspace (c : N) : bool :=
  ((9 <=? c) && (c <=? 13)) || ((28 <=? c) && (c <=? 32))
  || (c =? 133) || (c =? 160) || (c =? 5760)
  || ((8192 <=? c) && (c <=? 8202))
  || (c =? 8232) || (c =? 8233) || (c =? 8239) || (c =? 8287) || (c =? 12288).

Fixpoint lstrip (s : pystr) : pystr :=
  match s with
  | c :: s' => if isspace c then lstrip s' else s
  | [] => []
  end.

(** [s.strip()] *)
Definition strip (s : pystr) : pystr := rev (lstrip (rev (lstrip s))).

(** [str.lower] for one code point, on the alphabets the catalog uses:
    Basic Latin [A-Z] and the Cyrillic capitals U+0400..U+042F.  Other code
    points are left as they are. *)
Definition lower_char (c : N) : N :=
  if (65 <=? c) && (c <=? 90) then c + 32
  else if (1024 <=? c) && (c <=? 1039) then c + 80
  else if (1040 <=? c) && (c <=? 1071) then c + 32
  else c.

(** [s.lower()] *)
Definition lower (s : pystr) : pystr := map lower_char s.

Definition str_eqb (a b : pystr) : bool := bool_decide (a = b).

(** [x in xs] for a list or a set of strings. *)
Definition inb (x : pystr) (xs : list pystr) : bool := bool_decide (x ∈ xs).

Fixpoint startswith (p s : pystr) : bool :=
  match p, s with
  | [], _ => true
  | a :: p', b :: s' => (a =? b) && startswith p' s'
  | _ :: _, [] => false
  end.

(** [sub in s] for strings: [sub] occurs in [s] as a contiguous run. *)
Fixpoint contains (sub s : pystr) : bool :=
  startswith sub s ||
  match s with
  | [] => false
  | _ :: s' => contains sub s'
  end.

(** [s.replace(old, new)] for a non-empty [old]: the occurrences of [old]
    are replaced from left to right, without overlap.  [skip] counts the
    characters of a matched occurrence still to be dropped. *)
Fixpoint replace_from (old new : pystr) (skip : nat) (s : pystr) : pystr :=
  match s with
  | [] => []
  | c :: s' =>
    match skip with
    | S k => replace_from old new k s'
    | O =>
      if startswith old s
      then new ++ replace_from old new (Nat.pred (length old)) s'
      else c :: replace_from old new O s'
    end
  end.

Definition replace (old new s : pystr) : pystr := replace_from old new O s.

(** [sep.join(parts)] *)
Fixpoint join (sep : pystr) (parts : list pystr) : pystr :=
  match parts with
  | [] => []
  | [p] => p
  | p :: rest => p ++ sep ++ join sep rest
  end.

(** [a < b] and [a <= b] on strings: lexicographic on code points. *)
Fixpoint str_ltb (a b : pystr) : bool :=
  match a, b with
  | _, [] => false
  | [], _ :: _ => true
  | x :: a', y :: b' => (x <? y) || ((x =? y) && str_ltb a' b')
  end.

Definition str_leb (a b : pystr) : bool := negb (str_ltb b a).

(** ** Configuration of the script *)

Definition ID_COLUMN : pystr := Eval vm_compute in u "Артикул".
Definition MANUFACTURER : pystr := Eval vm_compute in u "Производитель".
Definition FILTERS_FIELD : pystr :=
  Eval vm_compute in u "Фильтры тонкой очистки воздуха".

Definition MAPPING : list (pystr * list pystr) := Eval vm_compute in
  [ (u "Производитель",
     [u "Бренд"; u "Производитель"; u "Заводская маркировка"]);
    (u "Цена",
     [u "Цена"; u "Розничная цена"; u "Цена со скидкой"; u "Стоимость";
      u "Price"; u "РРЦ"]);
    (u "Мощность в режиме охлаждения",
     [u "Холодопроизводительность (кВт)";
      u "Номинальная холодопроизводительность, кВт";
      u "Номинальная холодопроизводительность";
      u "Охлаждение (кВт)";
      u "Произв. холод, кВт";
      u "Производительность холод , кВт";
      u "Холодопроизводительность";
      u "Охлаждение (Вт)"]);
    (u "Тип хладагента",
     [u "Тип хладагента"; u "Марка фреона"]);
    (u "Цвет",
     [u "Цвет внутреннего блока"; u "Цвет прибора"; u "Цвет"]);
    (u "Класс энергопотребления",
     [u "Класс энергопотребления";
      u "Класс энергоэффективности (охлаждение)";
      u "Класс энергоэффективности EER (охлаждение)";
      u "Класс энергетической эффективности"]);
    (u "Инвертор/Тип компрессора",
     [u "Инверторная технология"; u "Тип компрессора"; u "Инвертор";
      u "Инверторный компрессор"; u "Тип управления компрессором"]);
    (u "Основные режимы (режим работы)",
     [u "Режим работы"; u "Основные режимы (режим работы)"; u "Режимы работы"]);
    (u "Уровень шума",
     [u "Уровень шума внутреннего блока, дБ(А)";
      u "Уровень шума внутреннего блока";
      u "Уровень звукового давления дБ(А)";
      u "Мин. уровень шума , дБ(А)"]);
    (u "Максимальная длина коммуникаций",
     [u "Максимальная длина трассы"; u "Max.длина магистрали , м";
      u "Длина трассы, м"; u "Максимальная длина труб, м"]);
    (u "Модель",
     [u "Название"; u "Модель"; u "Модель внутреннего блока"]);
    (u "Изображение",
     [u "Изображения"; u "Файлы"]) ].

Definition FILTER_KEYS : list pystr := Eval vm_compute in
  [ u "Дополнительные фильтры тонкой очистки в комплекте";
    u "Фильтра";
    u "Воздушный фильтр" ].

Definition YES_VALUES : list pystr := Eval vm_compute in
  [ u "да"; u "+"; u "yes"; u "true"; u "1"; u "есть" ].

(** The two literals of [extract_filters]. *)
Definition MARKER : pystr := Eval vm_compute in u "фильтр тонкой очистки".
Definition LABEL_PREFIX : pystr :=
  Eval vm_compute in u "Дополнительный фильтр тонкой очистки ".

(** ** Cells, exceptions, rows and frames *)

(** A spreadsheet cell as pandas holds it: a text, or the missing value
    [np.nan]. *)
Inductive cell : Type :=
| nan
| text (s : pystr).

#[global] Instance cell_eq_dec : EqDecision cell.
Proof. solve_decision. Defined.

(** [pd.notna(v)] *)
Definition notna (v : cell) : bool :=
  match v with nan => false | text _ => true end.

(** [str(v)] *)
Definition str (v : cell) : pystr :=
  match v with nan => [110; 97; 110] | text s => s end.

(** Truth value of a string or a list in a condition: non-empty. *)
Definition truthy {A : Type} (s : list A) : bool :=
  match s with [] => false | _ :: _ => true end.

Inductive exn : Type :=
| KeyError (label : pystr).

(** Outcome of a computation that may raise. *)
Inductive result (A : Type) : Type :=
| Ok (a : A)
| Raise (e : exn).
Arguments Ok {A} a.
Arguments Raise {A} e.

#[global] Instance result_ret : MRet result := fun A a => Ok a.
#[global] Instance result_bind : MBind result := fun A B f m =>
  match m with
  | Ok a => f a
  | Raise e => Raise e
  end.

(** A [for] loop that threads an accumulator and stops at the first raise. *)
Fixpoint for_each {A B : Type} (body : B → A → result B) (l : list A) (acc : B)
  : result B :=
  match l with
  | [] => Ok acc
  | x :: l' => acc' ← body acc x; for_each body l' acc'
  end.

(** A [pd.Series] holding one row: index labels with their values. *)
Definition Series : Type := list (pystr * cell).

Definition index (row : Series) : list pystr := map fst row.

(** [row[key]] *)
Fixpoint getitem (row : Series) (key : pystr) : result cell :=
  match row with
  | [] => Raise (KeyError key)
  | (k, v) :: row' => if str_eqb k key then Ok v else getitem row' key
  end.

(** A [pd.DataFrame]: the column labels and the rows, each row holding one
    cell per column. *)
Record DataFrame : Type := mkDataFrame {
  columns : list pystr;
  rows : list (list cell)
}.

(** Row [r] of [df] as the Series that [df.apply(f, axis=1)] passes to [f]. *)
Definition series (df : DataFrame) (r : list cell) : Series :=
  zip (columns df) r.

(** The cell of row [r] under [label]; a cell the row does not hold is
    missing. *)
Definition loc (df : DataFrame) (r : list cell) (label : pystr) : cell :=
  match getitem (series df r) label with
  | Ok v => v
  | Raise _ => nan
  end.

(** [df[label]] *)
Definition getcol (df : DataFrame) (label : pystr) : result (list cell) :=
  if inb label (columns df)
  then Ok (map (fun r => loc df r label) (rows df))
  else Raise (KeyError label).

(** [df[label] = col], for [col] on the index of [df]; on the empty
    [pd.DataFrame()] the assignment also sets the index. *)
Definition setitem (df : DataFrame) (label : pystr) (col : list cell)
  : DataFrame :=
  match list_find (fun c => c = label) (columns df) with
  | Some (i, _) =>
    mkDataFrame (columns df) (zip_with (fun r v => <[i := v]> r) (rows df) col)
  | None =>
    mkDataFrame (columns df ++ [label])
      (match columns df with
       | [] => map (fun v => [v]) col
       | _ :: _ => zip_with (fun r v => r ++ [v]) (rows df) col
       end)
  end.

(** [df[label] = np.nan]: the scalar is broadcast over the index. *)
Definition setitem_scalar (df : DataFrame) (label : pystr) (v : cell)
  : DataFrame :=
  setitem df label (replicate (length (rows df)) v).

(** Labels in order of first appearance, as the union of the column indexes
    in [pd.concat] keeps them. *)
Fixpoint unique (l : list pystr) : list pystr :=
  match l with
  | [] => []
  | x :: l' => x :: filter (fun y => y ≠ x) (unique l')
  end.

(** [row.reindex(labels)]: a label the row lacks gets [nan]. *)
Definition reindex (row : Series) (labels : list pystr) : list cell :=
  map (fun c => match getitem row c with Ok v => v | Raise _ => nan end) labels.

(** [pd.concat(dataframes, axis=0, ignore_index=True)]: the rows of all
    frames in order, over the union of their columns. *)
Definition concat (dataframes : list DataFrame) : DataFrame :=
  let labels := unique (flat_map columns dataframes) in
  mkDataFrame labels
    (flat_map (fun df => map (fun r => reindex (series df r) labels) (rows df))
       dataframes).

(** ** What [pd.read_excel] returns *)

(** A value of a sheet as [pd.read_excel] returns it: the missing value of
    a blank cell, a text, or a value of another type. *)
Inductive scalar : Type :=
| py_nan
| py_str (s : pystr)
| py_int (n : Z)
| py_float (mantissa exponent : Z)
| py_bool (b : bool)
| py_datetime (seconds : Z).

(** A sheet that was read: the column labels, as [astype(str)] gives them,
    and the rows. *)
Record Sheet : Type := mkSheet {
  header : list pystr;
  body : list (list scalar)
}.

(** The cell of a frame for a value of a sheet; only a text and the missing
    value have one. *)
Definition cell_of (v : scalar) : option cell :=
  match v with
  | py_nan => Some nan
  | py_str s => Some (text s)
  | _ => None
  end.

(** The frame of a sheet whose cells are texts or blank. *)
Definition frame_of (sheet : Sheet) : option DataFrame :=
  body_cells ← mapM (mapM cell_of) (body sheet);
  Some (mkDataFrame (header sheet) body_cells).

(** The frames of what [pd.read_excel] gave for the files found, file by
    file: a sheet, or [None] where it raised. *)
Definition frames_of (reads : list (option Sheet))
  : option (list (option DataFrame)) :=
  mapM (fun read =>
          match read with
          | Some sheet => df ← frame_of sheet; Some (Some df)
          | None => Some None
          end) reads.

(** No two headers of a sheet that was read are equal once stripped. *)
Definition distinct_headers (files : list (option DataFrame)) : Prop :=
  Forall (fun df => NoDup (map strip (columns df))) (omap id files).

#[global] Instance distinct_headers_dec files : Decision (distinct_headers files).
Proof. unfold distinct_headers. apply _. Defined.

(** ** Logging *)

Inductive level : Type := INFO | WARNING | ERROR.

Inductive message : Type :=
| FilesNotFound
| FilesFound (n : nat)
| Loaded (file : nat) (nrows : nat)
| ErrorLoading (file : nat)
| BuildingCatalog
| IdentifierNotFound
| Mapped (target source : pystr)
| FieldNotFound (target : pystr)
| ProcessingFilters
| MergingDuplicates
| SortingByManufacturer
| Success (unique_items : nat).

Definition log : Type := list (level * message).

(** ** [load_data] *)

(** [df.columns = df.columns.astype(str).str.strip()] *)
Definition strip_columns (df : DataFrame) : DataFrame :=
  mkDataFrame (map strip (columns df)) (rows df).

(** The loop of [load_data] over the files found: [files] holds, per file,
    the frame [pd.read_excel] returned, or [None] where it raised. *)
Fixpoint load_files (files : list (option DataFrame)) (n : nat)
    (lg : log) (dataframes : list DataFrame) : log * list DataFrame :=
  match files with
  | [] => (lg, dataframes)
  | Some df :: files' =>
    load_files files' (S n)
      (lg ++ [(INFO, Loaded n (length (rows df)))])
      (dataframes ++ [strip_columns df])
  | None :: files' =>
    load_files files' (S n) (lg ++ [(ERROR, ErrorLoading n)]) dataframes
  end.

Definition load_data (files : list (option DataFrame))
  : log * option DataFrame :=
  match files with
  | [] => ([(ERROR, FilesNotFound)], None)
  | _ :: _ =>
    let '(lg, dataframes) :=
      load_files files O [(INFO, FilesFound (length files))] [] in
    (lg, match dataframes with
         | [] => None
         | _ :: _ => Some (concat dataframes)
         end)
  end.

(** ** [extract_filters] *)

(** Body of the loop over [FILTER_KEYS]. *)
Definition direct_step (row : Series) (active_filters : list pystr)
    (key : pystr) : result (list pystr) :=
  if inb key (index row) then
    v ← getitem row key;
    if notna v && truthy (strip (str v))
    then Ok (active_filters ++ [str v])
    else Ok active_filters
  else Ok active_filters.

(** The list comprehension that selects the boolean-flag columns. *)
Definition boolean_cols (source_columns : list pystr) : list pystr :=
  filter (fun c => contains MARKER (lower c) && negb (inb c FILTER_KEYS) = true)
    source_columns.

(** Body of the loop over [boolean_cols]. *)
Definition boolean_step (row : Series) (active_filters : list pystr)
    (col : pystr) : result (list pystr) :=
  v ← getitem row col;
  let val := lower (strip (str v)) in
  if inb val YES_VALUES
  then
    let name := replace LABEL_PREFIX [] col in
    Ok (active_filters ++ [name])
  else Ok active_filters.

Definition extract_filters (row : Series) (source_columns : list pystr)
  : result cell :=
  active_filters ← for_each (direct_step row) FILTER_KEYS [];
  active_filters ← for_each (boolean_step row) (boolean_cols source_columns)
                     active_filters;
  Ok (if truthy active_filters
      then text (join [44; 32] active_filters)
      else nan).

(** ** Merge of duplicates *)

(** [x.dropna()] *)
Definition dropna (x : list cell) : list cell :=
  filter (fun v => notna v = true) x.

(** The aggregation function of [process_catalog]:
    [lambda x: x.dropna().iloc[0] if not x.dropna().empty else np.nan]. *)
Definition first_valid (x : list cell) : cell :=
  if negb (negb (truthy (dropna x)))
  then default nan (head (dropna x))
  else nan.

Definition str_le (a b : pystr) : Prop := str_leb a b = true.

#[global] Instance str_le_dec a b : Decision (str_le a b).
Proof. unfold str_le. apply _. Defined.

(** The group keys of [groupby]: the distinct values of the key column, the
    missing ones dropped ([dropna=True]), in ascending order ([sort=True]). *)
Definition group_keys (keycol : list cell) : list pystr :=
  merge_sort str_le
    (unique (omap (fun v => match v with text s => Some s | nan => None end)
               keycol)).

(** [df.groupby(key, as_index=False).agg(func)]: one row per group key, the
    key first, then [func] of every other column restricted to the rows of
    the group, in the order of the frame. *)
Definition groupby_agg (df : DataFrame) (key : pystr)
    (func : list cell → cell) : result DataFrame :=
  keycol ← getcol df key;
  let others := filter (fun c => c ≠ key) (columns df) in
  Ok (mkDataFrame (key :: others)
        (map (fun k =>
                let group :=
                  filter (fun r => loc df r key = text k) (rows df) in
                text k :: map (fun c => func (map (fun r => loc df r c) group))
                            others)
           (group_keys keycol))).

(** ** Sort *)

(** [l.take(indexer)] *)
Definition take_at {A : Type} (indexer : list nat) (l : list A) : list A :=
  omap (fun i => l !! i) indexer.

(** [arr[mask]] for a boolean mask. *)
Definition select {A : Type} (mask : list bool) (l : list A) : list A :=
  map snd (filter (fun p => fst p = true) (zip mask l)).

Definition text_of (v : cell) : option pystr :=
  match v with text s => Some s | nan => None end.

(** [keys.argsort(kind='quicksort')] for an array of texts, the sorting
    routine behind [sort_values], whose [kind] the script leaves at its
    default.  What the rest of the script can rely on is that the indexer
    orders the keys; of the kinds only ['mergesort'] and ['stable'] are
    documented as stable.  The routine numpy runs is [aquicksort] below. *)
Class ArgSort : Type := {
  argsort : list pystr → list nat;
  argsort_perm : ∀ keys, argsort keys ≡ₚ seq 0 (length keys);
  argsort_sorted : ∀ keys, Sorted str_le (take_at (argsort keys) keys)
}.

(** pandas' [nargsort(items, kind='quicksort', ascending=True,
    na_position='last')], which gives [sort_values] its indexer: the
    missing keys are set apart, the others are sorted by the routine, and
    the positions of the missing ones are appended as they stand. *)
Definition nargsort `{ArgSort} (items : list cell) : list nat :=
  let mask := map (fun v => negb (notna v)) items in
  let idx := seq 0 (length items) in
  let non_nans := omap text_of items in
  let non_nan_idx := select (map negb mask) idx in
  let nan_idx := select mask idx in
  let indexer := take_at (argsort non_nans) non_nan_idx in
  indexer ++ nan_idx.

(** [df.sort_values(by=label, inplace=True, na_position='last')] *)
Definition sort_values `{ArgSort} (df : DataFrame) (label : pystr)
  : result DataFrame :=
  keys ← getcol df label;
  Ok (mkDataFrame (columns df) (take_at (nargsort keys) (rows df))).

(** ** numpy's quicksort *)

(** The routine of [kind='quicksort'] on an array [v] of texts
    ([npy_aquicksort]): it rearranges the positions in [tosort], which
    start as [0 .. num - 1].  A range of more than seventeen positions is
    partitioned around the median of its first, middle and last key, the
    smaller part is partitioned on and the larger one is put on a stack; a
    range of at most seventeen is sorted by insertion; a range taken from
    the stack after [2 * floor(log2 num)] partitions is sorted as a heap.
    [pl], [pr], [pm], [pi], [pj] are positions in [tosort]. *)
Section quicksort.
Variable v : list pystr.

(** [v[tosort[p]]] *)
Definition key_at (tosort : list nat) (p : nat) : pystr :=
  default [] (v !! default O (tosort !! p)).

Definition INTP_SWAP (tosort : list nat) (p q : nat) : list nat :=
  <[p := default O (tosort !! q)]> (<[q := default O (tosort !! p)]> tosort).

(** The swap of the entries at [p] and [q] when the key at [p] is less. *)
Definition swap_if_less (tosort : list nat) (p q : nat) : list nat :=
  if str_ltb (key_at tosort p) (key_at tosort q)
  then INTP_SWAP tosort p q else tosort.

(** [do ++pi; while] the key at [pi] is less than [vp]. *)
Fixpoint scan_up (tosort : list nat) (vp : pystr) (fuel pi : nat) : nat :=
  match fuel with
  | O => pi
  | S fuel =>
    let pi := S pi in
    if str_ltb (key_at tosort pi) vp then scan_up tosort vp fuel pi else pi
  end.

(** [do --pj; while] [vp] is less than the key at [pj]. *)
Fixpoint scan_down (tosort : list nat) (vp : pystr) (fuel pj : nat) : nat :=
  match fuel with
  | O => pj
  | S fuel =>
    let pj := Nat.pred pj in
    if str_ltb vp (key_at tosort pj) then scan_down tosort vp fuel pj else pj
  end.

(** The [for (;;)] loop of the partition. *)
Fixpoint partition_loop (vp : pystr) (fuel : nat) (tosort : list nat)
    (pi pj : nat) : list nat * nat :=
  match fuel with
  | O => (tosort, pi)
  | S fuel =>
    let pi := scan_up tosort vp (length tosort) pi in
    let pj := scan_down tosort vp (length tosort) pj in
    if (pj <=? pi)%nat then (tosort, pi)
    else partition_loop vp fuel (INTP_SWAP tosort pi pj) pi pj
  end.

(** One partition of the range [pl .. pr]; the result holds the position
    [pi] of the pivot. *)
Definition partition (tosort : list nat) (pl pr : nat) : list nat * nat :=
  let pm := (pl + (pr - pl) / 2)%nat in
  let tosort := swap_if_less tosort pm pl in
  let tosort := swap_if_less tosort pr pm in
  let tosort := swap_if_less tosort pm pl in
  let vp := key_at tosort pm in
  let pj := (pr - 1)%nat in
  let tosort := INTP_SWAP tosort pm pj in
  let '(tosort, pi) := partition_loop vp (length tosort) tosort pl pj in
  (INTP_SWAP tosort pi (pr - 1)%nat, pi).

(** [while] [pj > pl] and [vp] is less than the key at [pj - 1]: the entry
    at [pj - 1] moves up to [pj]. *)
Fixpoint shift_up (vp : pystr) (pl fuel : nat) (tosort : list nat) (pj : nat)
  : list nat * nat :=
  match fuel with
  | O => (tosort, pj)
  | S fuel =>
    if (pl <? pj)%nat && str_ltb vp (key_at tosort (pj - 1)%nat)
    then shift_up vp pl fuel
           (<[pj := default O (tosort !! (pj - 1)%nat)]> tosort) (pj - 1)%nat
    else (tosort, pj)
  end.

(** Body of the insertion sort for the position [pi]. *)
Definition insert_step (pl : nat) (tosort : list nat) (pi : nat) : list nat :=
  let vi := default O (tosort !! pi) in
  let vp := default [] (v !! vi) in
  let '(tosort, pj) := shift_up vp pl pi tosort pi in
  <[pj := vi]> tosort.

(** [for (pi = pl + 1; pi <= pr; ++pi)] *)
Definition insertion_sort (tosort : list nat) (pl pr : nat) : list nat :=
  foldl (insert_step pl) tosort (seq (S pl) (pr - pl)).

(** The sift of [npy_aheapsort] on the heap [a[1 .. n]], where [a[k]] is
    [tosort[pl + k - 1]]: [tmp] goes down from [i], whose larger child is
    looked for from [j]. *)
Fixpoint sift_down (pl n tmp fuel : nat) (tosort : list nat) (i j : nat)
  : list nat :=
  let a k := (pl + k - 1)%nat in
  match fuel with
  | O => <[a i := tmp]> tosort
  | S fuel =>
    if (j <=? n)%nat then
      let j :=
        if (j <? n)%nat &&
           str_ltb (key_at tosort (a j)) (key_at tosort (a (j + 1)%nat))
        then (j + 1)%nat else j in
      if str_ltb (default [] (v !! tmp)) (key_at tosort (a j))
      then sift_down pl n tmp fuel
             (<[a i := default O (tosort !! a j)]> tosort) j (j + j)%nat
      else <[a i := tmp]> tosort
    else <[a i := tmp]> tosort
  end.

(** [for (l = n >> 1; l > 0; --l)] *)
Definition heapify (pl n : nat) (tosort : list nat) : list nat :=
  foldl (fun tosort l =>
           sift_down pl n (default O (tosort !! (pl + l - 1)%nat)) n tosort
             l (l + l)%nat)
    tosort (reverse (seq 1 (n / 2))).

(** Body of [for (; n > 1;)]: the largest key goes to the end of the heap. *)
Definition heap_pop (pl : nat) (tosort : list nat) (n : nat) : list nat :=
  let tmp := default O (tosort !! (pl + n - 1)%nat) in
  let tosort := <[(pl + n - 1)%nat := default O (tosort !! pl)]> tosort in
  sift_down pl (n - 1) tmp n tosort 1 2.

Definition aheapsort (tosort : list nat) (pl n : nat) : list nat :=
  foldl (heap_pop pl) (heapify pl n tosort) (reverse (seq 2 (n - 1))).

(** The loops of [npy_aquicksort] for the range [pl .. pr]; the range put
    on the stack is sorted when the smaller one is. *)
Fixpoint quicksort_loop (fuel : nat) (cdepth : Z) (tosort : list nat)
    (pl pr : nat) : list nat :=
  match fuel with
  | O => tosort
  | S fuel =>
    let stack_pop cdepth tosort pl pr :=
      if (cdepth <? 0)%Z then aheapsort tosort pl (pr - pl + 1)
      else quicksort_loop fuel cdepth tosort pl pr in
    if (16 <? pr - pl)%nat then
      let '(tosort, pi) := partition tosort pl pr in
      let cdepth := (cdepth - 1)%Z in
      if (pi - pl <? pr - pi)%nat
      then stack_pop cdepth
             (quicksort_loop fuel cdepth tosort pl (pi - 1)%nat) (S pi) pr
      else stack_pop cdepth
             (quicksort_loop fuel cdepth tosort (S pi) pr) pl (pi - 1)%nat
    else insertion_sort tosort pl pr
  end.

Definition aquicksort (num : nat) : list nat :=
  quicksort_loop (S num) (Z.log2 (Z.of_nat num) * 2) (seq 0 num) 0 (num - 1).
End quicksort.

(** Whether an indexer orders the keys. *)
Definition orders (keys : list pystr) (indexer : list nat) : bool :=
  bool_decide (indexer ≡ₚ seq 0 (length keys)) &&
  bool_decide (Sorted str_le (take_at indexer keys)).

(** ** [process_catalog] *)

(** How a run of [process_catalog] ends when nothing is raised: one of the
    two early [return]s, or the frame passed to [to_excel]. *)
Inductive outcome : Type :=
| NoData
| NoIdentifier
| Saved (final_df : DataFrame).

(** [next((s for s in sources if s in current_cols), None)] *)
Definition next_match (sources current_cols : list pystr) : option pystr :=
  head (filter (fun s => s ∈ current_cols) sources).

(** Body of the loop over [MAPPING.items()], on the log and [temp_df]. *)
Definition map_field (raw_df : DataFrame) (current_cols : list pystr)
    (st : log * DataFrame) (item : pystr * list pystr)
  : result (log * DataFrame) :=
  let '(lg, temp_df) := st in
  let '(target, sources) := item in
  let no_match :=
    Ok (lg ++ [(WARNING, FieldNotFound target)],
        setitem_scalar temp_df target nan) in
  match next_match sources current_cols with
  | Some match_ =>
    if truthy match_ then
      col ← getcol raw_df match_;
      Ok (lg ++ [(INFO, Mapped target match_)], setitem temp_df target col)
    else no_match
  | None => no_match
  end.

(** The reconciliation of the columns: the identifier column, then the loop
    over [MAPPING.items()]; [lg] is the log so far. *)
Definition reconcile (raw_df : DataFrame) (lg : log)
  : result (log * DataFrame) :=
  let temp_df := mkDataFrame [] [] in
  let current_cols := columns raw_df in
  ids ← getcol raw_df ID_COLUMN;
  let temp_df := setitem temp_df ID_COLUMN ids in
  for_each (map_field raw_df current_cols) MAPPING (lg, temp_df).

(** [raw_df.apply(extract_filters, axis=1, source_columns=current_cols)] *)
Definition apply_extract_filters (raw_df : DataFrame) : result (list cell) :=
  let current_cols := columns raw_df in
  mapM (fun r => extract_filters (series raw_df r) current_cols) (rows raw_df).

(** [temp_df] as it enters the merge: reconciled columns and the filters. *)
Definition canonical_frame (raw_df : DataFrame) (lg : log)
  : result (log * DataFrame) :=
  '(lg, temp_df) ← reconcile raw_df lg;
  let lg := lg ++ [(INFO, ProcessingFilters)] in
  filters ← apply_extract_filters raw_df;
  Ok (lg, setitem temp_df FILTERS_FIELD filters).

(** [temp_df.groupby("Артикул", as_index=False).agg(...)] *)
Definition merge_duplicates (temp_df : DataFrame) : result DataFrame :=
  groupby_agg temp_df ID_COLUMN first_valid.

(** The guarded [sort_values] call. *)
Definition sort_by_manufacturer `{ArgSort} (final_df : DataFrame)
  : result DataFrame :=
  if inb MANUFACTURER (columns final_df)
  then sort_values final_df MANUFACTURER
  else Ok final_df.

(** The part of [process_catalog] after the identifier check, up to the
    frame that is saved. *)
Definition build_catalog `{ArgSort} (raw_df : DataFrame) (lg : log)
  : result (log * DataFrame) :=
  '(lg, temp_df) ← canonical_frame raw_df lg;
  let lg := lg ++ [(INFO, MergingDuplicates)] in
  final_df ← merge_duplicates temp_df;
  let lg := lg ++ [(INFO, SortingByManufacturer)] in
  final_df ← sort_by_manufacturer final_df;
  Ok (lg ++ [(INFO, Success (length (rows final_df)))], final_df).

Definition process_catalog `{ArgSort} (files : list (option DataFrame))
  : result (log * outcome) :=
  let '(lg, raw_df) := load_data files in
  match raw_df with
  | None => Ok (lg, NoData)
  | Some raw_df =>
    let lg := lg ++ [(INFO, BuildingCatalog)] in
    let current_cols := columns raw_df in
    if inb ID_COLUMN current_cols then
      '(lg, final_df) ← build_catalog raw_df lg;
      Ok (lg, Saved final_df)
    else
      Ok (lg ++ [(ERROR, IdentifierNotFound)], NoIdentifier)
  end.

(** ** A merge sort of the keys *)

(** An indexer that orders the keys, computed by a merge sort of the keys
    paired with their positions. *)
Definition pair_le (a b : nat * pystr) : Prop := str_le (snd a) (snd b).

#[global] Instance pair_le_dec a b : Decision (pair_le a b).
Proof. unfold pair_le. apply _. Defined.

Definition argsort_merge (keys : list pystr) : list nat :=
  map fst (merge_sort pair_le (zip (seq 0 (length keys)) keys)).

(** The indexer of numpy's quicksort; were it not to order the keys, the
    one of the merge sort. *)
Definition argsort_quicksort (keys : list pystr) : list nat :=
  let indexer := aquicksort keys (length keys) in
  if orders keys indexer then indexer else argsort_merge keys.

(** * Notions of the statements and closed forms of the loops *)

(** ** Rows and labels *)

(** A frame whose rows all hold one cell per column. *)
Definition full (df : DataFrame) : Prop :=
  Forall (fun r => length r = length (columns df)) (rows df).

(** ** The loops of [extract_filters] in closed form *)

(** What a direct filter column contributes for a row. *)
Definition direct_value (row : Series) (key : pystr) : option pystr :=
  match getitem row key with
  | Ok (text s) => if truthy (strip s) then Some s else None
  | _ => None
  end.

(** Whether the row's value under [col], trimmed and lowercased, is one of
    [YES_VALUES]. *)
Definition affirmative (row : Series) (col : pystr) : bool :=
  match getitem row col with
  | Ok v => inb (lower (strip (str v))) YES_VALUES
  | Raise _ => false
  end.

(** The label a boolean-flag column contributes. *)
Definition label_of (col : pystr) : pystr := replace LABEL_PREFIX [] col.

Definition direct_filters (row : Series) : list pystr :=
  omap (direct_value row) FILTER_KEYS.

Definition flag_filters (row : Series) (source_columns : list pystr)
  : list pystr :=
  map label_of
    (filter (fun c => affirmative row c = true) (boolean_cols source_columns)).

(** The result of the extractor for a list of contributions. *)
Definition filters_cell (active_filters : list pystr) : cell :=
  match active_filters with
  | [] => nan
  | _ :: _ => text (join [44; 32] active_filters)
  end.

(** ** The reconciliation loop in closed form *)

(** The value the loop gives a row for a field with candidates [sources]. *)
Definition field_value (raw_df : DataFrame) (sources : list pystr)
    (r : list cell) : cell :=
  match next_match sources (columns raw_df) with
  | Some match_ => if truthy match_ then loc raw_df r match_ else nan
  | None => nan
  end.

(** The record the loop logs for a field. *)
Definition field_record (raw_df : DataFrame) (item : pystr * list pystr)
  : level * message :=
  match next_match (snd item) (columns raw_df) with
  | Some match_ =>
    if truthy match_ then (INFO, Mapped (fst item) match_)
    else (WARNING, FieldNotFound (fst item))
  | None => (WARNING, FieldNotFound (fst item))
  end.

(** ** The canonical frame in closed form *)

(** The canonical schema: the identifier, the keys of [MAPPING] in their
    order, and the derived filters field. *)
Definition CANONICAL : list pystr :=
  ID_COLUMN :: map fst MAPPING ++ [FILTERS_FIELD].

(** [MAPPING[target]], when [target] is a key. *)
Fixpoint mapping_get (items : list (pystr * list pystr)) (target : pystr)
  : option (list pystr) :=
  match items with
  | [] => None
  | (k, sources) :: items' =>
    if str_eqb k target then Some sources else mapping_get items' target
  end.

Definition pick (a fl : cell) (fv : list pystr → cell) (field : pystr) : cell :=
  if str_eqb field ID_COLUMN then a
  else if str_eqb field FILTERS_FIELD then fl
  else match mapping_get MAPPING field with
       | Some sources => fv sources
       | None => nan
       end.

(** The filters value of a row of the loaded frame. *)
Definition row_filters (raw_df : DataFrame) (r : list cell) : cell :=
  filters_cell (direct_filters (series raw_df r) ++
                flag_filters (series raw_df r) (columns raw_df)).

(** The value of a row of [temp_df] under a canonical field, from the row of
    [raw_df] it was made of. *)
Definition canonical_value (raw_df : DataFrame) (r : list cell)
    (field : pystr) : cell :=
  pick (loc raw_df r ID_COLUMN) (row_filters raw_df r)
    (fun sources => field_value raw_df sources r) field.

(** ** The merge in closed form *)

(** The rows of the loaded frame whose identifier is [k]. *)
Definition group_of (raw_df : DataFrame) (k : pystr) : list (list cell) :=
  filter (fun r => loc raw_df r ID_COLUMN = text k) (rows raw_df).

(** The identifiers of the merged frame, in its order. *)
Definition merged_keys (raw_df : DataFrame) : list pystr :=
  group_keys (map (fun r => loc raw_df r ID_COLUMN) (rows raw_df)).

(** The value of the merged row of identifier [k] under [field]. *)
Definition merged_value (raw_df : DataFrame) (k : pystr) (field : pystr)
  : cell :=
  if str_eqb field ID_COLUMN then text k
  else first_valid
         (map (fun r => canonical_value raw_df r field) (group_of raw_df k)).

Definition merged_rows (raw_df : DataFrame) : list (list cell) :=
  map (fun k => map (merged_value raw_df k) CANONICAL) (merged_keys raw_df).

(** ** The sort and the whole run in closed form *)

(** The sort keys: the manufacturer column of the merged frame. *)
Definition sort_keys (raw_df : DataFrame) : list cell :=
  map (fun k => merged_value raw_df k MANUFACTURER) (merged_keys raw_df).

Definition final_rows `{ArgSort} (raw_df : DataFrame) : list (list cell) :=
  take_at (nargsort (sort_keys raw_df)) (merged_rows raw_df).

(** What the run logs after [load_data], when the identifier is there. *)
Definition catalog_log `{ArgSort} (raw_df : DataFrame) : log :=
  map (field_record raw_df) MAPPING ++
  [(INFO, ProcessingFilters); (INFO, MergingDuplicates);
   (INFO, SortingByManufacturer);
   (INFO, Success (length (final_rows raw_df)))].

(** The frames [load_data] concatenates: those that were read, with their
    headers stripped. *)
Definition loaded_frames (files : list (option DataFrame)) : list DataFrame :=
  map strip_columns (omap id files).

(** ** Distinct keys, permutations and the first valid value *)

(** The spec's reduction of one field of one group: the first value that
    is not missing, in the order of the rows; missing when all are. *)
Definition first_non_missing (xs : list cell) (v : cell) : Prop :=
  (∃ pre s post,
      xs = pre ++ text s :: post ∧ Forall (fun x => x = nan) pre ∧ v = text s)
  ∨ (Forall (fun x => x = nan) xs ∧ v = nan).

(** ** Rows of the canonical, merged and final frames *)

(** [temp_df] as [canonical_frame] returns it for the loaded frame. *)
Definition temp_frame (raw_df : DataFrame) : DataFrame :=
  mkDataFrame CANONICAL
    (map (fun r => map (canonical_value raw_df r) CANONICAL) (rows raw_df)).

(** The frame [process_catalog] saves for the loaded frame. *)
Definition final_frame `{ArgSort} (raw_df : DataFrame) : DataFrame :=
  mkDataFrame CANONICAL (final_rows raw_df).

(** The canonical schema, name by name. *)
Definition CANONICAL_NAMES : list string :=
  [ "Артикул"; "Производитель"; "Цена"; "Мощность в режиме охлаждения";
    "Тип хладагента"; "Цвет"; "Класс энергопотребления";
    "Инвертор/Тип компрессора"; "Основные режимы (режим работы)";
    "Уровень шума"; "Максимальная длина коммуникаций"; "Модель";
    "Изображение"; "Фильтры тонкой очистки воздуха" ]%string.

(** The distinct identifier values of the loaded rows, the missing marker
    not being one. *)
Definition distinct_identifiers (raw_df : DataFrame) : list pystr :=
  unique (omap text_of (map (fun r => loc raw_df r ID_COLUMN) (rows raw_df))).

(** ** Rows without identifier *)

(** The loaded frame without the rows whose identifier is missing. *)
Definition dropna_identifier (raw_df : DataFrame) : DataFrame :=
  mkDataFrame (columns raw_df)
    (filter (fun r => loc raw_df r ID_COLUMN ≠ nan) (rows raw_df)).

(** ** Alias resolution *)

(** The columns of [temp_df] when the loop over [MAPPING] is done. *)
Definition RECONCILED : list pystr := ID_COLUMN :: map fst MAPPING.

Definition reconciled_frame (raw_df : DataFrame) : DataFrame :=
  mkDataFrame RECONCILED
    (map (fun r => map (canonical_value raw_df r) RECONCILED) (rows raw_df)).

(** ** Labels of the boolean-flag columns *)

(** The label the spec words describe: the name without the prefix, when
    the name starts with it. *)
Definition removeprefix (prefix s : pystr) : pystr :=
  if startswith prefix s then drop (length prefix) s else s.

Definition spec_flag_filters (row : Series) (source_columns : list pystr)
  : list pystr :=
  map (removeprefix LABEL_PREFIX)
    (filter (fun c => affirmative row c = true) (boolean_cols source_columns)).

(** ** Filters and the columns of the source sheets *)

(** The filters of the rows computed as the spec words them: for every
    row of every sheet, the extractor on that row with the columns of its
    own sheet. *)
Definition filters_by_origin (dataframes : list DataFrame)
  : result (list cell) :=
  mapM (fun '(df, r) => extract_filters (series df r) (columns df))
    (flat_map (fun df => map (pair df) (rows df)) dataframes).

(** ** The missing identifier *)

(** A run that fails with an exception, as the spec has it for a dataset
    without identifier column. *)
Definition fails (run : result (log * outcome)) : Prop :=
  ∃ e, run = Raise e.

(** ** The sorted frame *)

(** Rows of equal key keep their order from [before] to [after]. *)
Definition stable_by (key : list cell → cell) (before after : list (list cell))
  : Prop :=
  ∀ v, filter (fun r => key r = v) after = filter (fun r => key r = v) before.

(** * Sample data *)

Definition txt (s : string) : cell := text (u s).

(** Two sheets that were read and a file that [pd.read_excel] rejected. *)
Definition example_sheet1 : DataFrame := mkDataFrame
  [ u "Артикул"; u " Бренд "; u "Розничная цена"; u "Фильтра";
    u "Дополнительный фильтр тонкой очистки угольный" ]
  [ [txt "X1"; txt "Zeta"; nan; txt "HEPA"; txt "Да "];
    [txt "X2"; txt "Acme"; txt "100"; nan; txt "нет"];
    [nan; txt "Ghost"; txt "5"; nan; nan] ].

Definition example_sheet2 : DataFrame := mkDataFrame
  [ u "Производитель"; u "Артикул"; u "Розничная цена"; u "Price" ]
  [ [txt "Other"; txt "X1"; txt "100"; txt "7"];
    [txt "Beta"; txt "X3"; txt "300"; txt "9"];
    [txt "Gamma"; txt "X1"; txt "200"; nan] ].

Definition example_files : list (option DataFrame) :=
  [Some example_sheet1; None; Some example_sheet2].

Definition example_log : log :=
  [ (INFO, FilesFound 3); (INFO, Loaded 0 3); (ERROR, ErrorLoading 1);
    (INFO, Loaded 2 3) ].

Definition example_raw : DataFrame := mkDataFrame
  [ u "Артикул"; u "Бренд"; u "Розничная цена"; u "Фильтра";
    u "Дополнительный фильтр тонкой очистки угольный";
    u "Производитель"; u "Price" ]
  [ [txt "X1"; txt "Zeta"; nan; txt "HEPA"; txt "Да "; nan; nan];
    [txt "X2"; txt "Acme"; txt "100"; nan; txt "нет"; nan; nan];
    [nan; txt "Ghost"; txt "5"; nan; nan; nan; nan];
    [txt "X1"; nan; txt "100"; nan; nan; txt "Other"; txt "7"];
    [txt "X3"; nan; txt "300"; nan; nan; txt "Beta"; txt "9"];
    [txt "X1"; nan; txt "200"; nan; nan; txt "Gamma"; nan] ].

(** ** A flag column with the phrase inside its name *)

Definition infix_column : pystr :=
  u "Опция: Дополнительный фильтр тонкой очистки угольный".

Definition infix_row : Series :=
  [(u "Артикул", txt "X1"); (infix_column, txt "да")].

(** ** Two sheets with the flag columns in a different order *)

Definition origin_sheet1 : DataFrame := mkDataFrame
  [ u "Артикул";
    u "Дополнительный фильтр тонкой очистки угольный";
    u "Дополнительный фильтр тонкой очистки фотокаталитический" ]
  [ [txt "A1"; txt "да"; txt "нет"] ].

Definition origin_sheet2 : DataFrame := mkDataFrame
  [ u "Артикул";
    u "Дополнительный фильтр тонкой очистки фотокаталитический";
    u "Дополнительный фильтр тонкой очистки угольный" ]
  [ [txt "B1"; txt "да"; txt "да"] ].

Definition origin_files : list (option DataFrame) :=
  [Some origin_sheet1; Some origin_sheet2].

(** ** Eighteen products of one manufacturer *)

Definition ties_sheet : DataFrame := mkDataFrame
  [ u "Артикул"; u "Бренд" ]
  (map (fun id => [txt id; txt "Acme"])
     [ "P01"; "P02"; "P03"; "P04"; "P05"; "P06"; "P07"; "P08"; "P09";
       "P10"; "P11"; "P12"; "P13"; "P14"; "P15"; "P16"; "P17"; "P18" ]%string).

Definition ties_raw : DataFrame := Eval vm_compute in
  concat (loaded_frames [Some ties_sheet]).

(** ** Further inputs *)

Definition price_sources : list pystr :=
  map u [ "Цена"; "Розничная цена"; "Цена со скидкой"; "Стоимость"; "Price";
          "РРЦ" ]%string.

Definition no_identifier_sheet : DataFrame := mkDataFrame
  [ u "Бренд"; u "Цена" ]
  [ [txt "Acme"; txt "100"] ].

Definition flags_row : Series :=
  [ (u "Артикул", txt "X1");
    (u "Фильтра", txt "HEPA");
    (u "Дополнительный фильтр тонкой очистки угольный", txt "Да ");
    (u "Дополнительный фильтр тонкой очистки плазменный", nan);
    (u "ФИЛЬТР ТОНКОЙ ОЧИСТКИ (катехиновый)", txt "+") ].

Definition direct_row : Series :=
  [ (u "Артикул", txt "X2");
    (u "Воздушный фильтр", txt " сетчатый ");
    (u "Фильтра", txt "   ");
    (u "Дополнительные фильтры тонкой очистки в комплекте", txt "HEPA");
    (u "Дополнительный фильтр тонкой очистки угольный", txt "yes") ].

(** ** Sheets as they are read *)

(** The sheet whose values are the cells of a frame. *)
Definition sheet_of (df : DataFrame) : Sheet :=
  mkSheet (columns df)
    (map (map (fun v => match v with nan => py_nan | text s => py_str s end))
       (rows df)).

Definition reads_of (files : list (option DataFrame)) : list (option Sheet) :=
  map (fmap sheet_of) files.

(** A sheet with an identifier and a price that are numbers. *)
Definition numeric_sheet : Sheet := mkSheet
  [ u "Артикул"; u "Бренд"; u "Цена" ]
  [ [py_int 1001; py_str (u "Acme"); py_float 199 (-1)];
    [py_str (u "X2"); py_nan; py_int 100] ].

(** A sheet whose identifier header is padded with blanks. *)
Definition blank_padded_sheet : DataFrame := mkDataFrame
  [ u "  Артикул "; u "Бренд" ]
  [ [txt "X1"; txt "Acme"] ].

(** A sheet with two headers that are equal once stripped. *)
Definition padded_sheet : DataFrame := mkDataFrame
  [ u " Артикул"; u "Артикул"; u "Бренд" ]
  [ [txt "X1"; txt "X3"; txt "Acme"] ].

(** ** Notions of the further properties *)

(** The record [load_data] logs for the file at position [n]. *)
Definition file_record (n : nat) (file : option DataFrame) : level * message :=
  match file with
  | Some df => (INFO, Loaded n (length (rows df)))
  | None => (ERROR, ErrorLoading n)
  end.

(** How a run ends, the log left aside. *)
Definition outcome_of (run : result (log * outcome)) : result outcome :=
  match run with
  | Ok (_, o) => Ok o
  | Raise e => Raise e
  end.

(** The files that [pd.read_excel] could read. *)
Definition readable (files : list (option DataFrame)) : list (option DataFrame) :=
  map Some (omap id files).

(** [a < b] on strings, as a relation. *)
Definition str_lt (a b : pystr) : Prop := str_ltb a b = true.

(** The canonical fields that are among their own candidates, with the
    identifier, and those that are not, with the filters field. *)
Definition SELF_ALIASED : list pystr := map u
  [ "Артикул"; "Производитель"; "Цена"; "Тип хладагента"; "Цвет";
    "Класс энергопотребления"; "Основные режимы (режим работы)";
    "Модель" ]%string.

Definition NOT_SELF_ALIASED : list pystr := map u
  [ "Мощность в режиме охлаждения"; "Инвертор/Тип компрессора";
    "Уровень шума"; "Максимальная длина коммуникаций"; "Изображение";
    "Фильтры тонкой очистки воздуха" ]%string.

(** The catalog of the example files, as a sheet to be read. *)
Definition saved_catalog : DataFrame := mkDataFrame (map u CANONICAL_NAMES)
  [ [txt "X2"; txt "Acme"; txt "100"; txt "2.5"; nan; nan; nan; nan; nan;
     txt "24"; nan; nan; nan; nan];
    [txt "X1"; txt "Zeta"; txt "100"; nan; nan; nan; nan; nan; nan; nan;
     nan; nan; nan; txt "HEPA, угольный"];
    [txt "X3"; nan; txt "300"; nan; nan; nan; nan; nan; nan; nan;
     nan; nan; nan; nan] ].

(** A frame with every row a second time, after the others. *)
Definition doubled (raw_df : DataFrame) : DataFrame :=
  mkDataFrame (columns raw_df) (rows raw_df ++ rows raw_df).

(** * Properties *)

(** ** The string order *)

Lemma str_ltb_asym a b : str_ltb a b = true → str_ltb b a = false.
Proof.
  revert b. induction a as [|x a IH]; intros [|y b]; simpl; try done.
  intros H. apply orb_true_iff in H as [H|H].
  - apply N.ltb_lt in H.
    apply orb_false_iff. split.
    + apply N.ltb_ge. lia.
    + apply andb_false_iff. left. apply N.eqb_neq. lia.
  - apply andb_true_iff in H as [H1 H2]. apply N.eqb_eq in H1. subst y.
    rewrite N.ltb_irrefl, N.eqb_refl. simpl. by apply IH.
Qed.

#[global] Instance str_le_total : Total str_le.
Proof.
  intros a b. unfold str_le, str_leb.
  destruct (str_ltb b a) eqn:E; [right|left; done].
  by rewrite (str_ltb_asym _ _ E).
Qed.

#[global] Instance pair_le_total : Total pair_le.
Proof. intros a b. apply (str_le_total (snd a) (snd b)). Qed.

(** ** The sorting routines meet the contract *)

Lemma take_at_pairs {A : Type} (keys : list A) (ps : list (nat * A)) :
  Forall (fun p => keys !! fst p = Some (snd p)) ps →
  take_at (map fst ps) keys = map snd ps.
Proof.
  induction 1 as [|[i k] ps Hp _ IH]; [done|].
  unfold take_at in *. simpl in *. rewrite Hp. simpl. f_equal. exact IH.
Qed.

Lemma zip_seq_lookup {A : Type} (keys : list A) (n : nat) :
  Forall (fun p => ∃ j, fst p = (n + j)%nat ∧ keys !! j = Some (snd p))
    (zip (seq n (length keys)) keys).
Proof.
  revert n. induction keys as [|k keys IH]; intros n; simpl; [constructor|].
  constructor.
  - exists O. simpl. split; [lia|done].
  - eapply Forall_impl; [apply (IH (S n))|].
    intros [i v] (j & Hi & Hj). exists (S j). simpl in *. split; [lia|done].
Qed.

Lemma fst_zip_seq {A : Type} (keys : list A) (n : nat) :
  map fst (zip (seq n (length keys)) keys) = seq n (length keys).
Proof. apply fst_zip. by rewrite length_seq. Qed.

Lemma argsort_merge_perm keys :
  argsort_merge keys ≡ₚ seq 0 (length keys).
Proof.
  unfold argsort_merge.
  rewrite merge_sort_Permutation.
  by rewrite fst_zip_seq.
Qed.

Lemma argsort_merge_sorted keys :
  Sorted str_le (take_at (argsort_merge keys) keys).
Proof.
  unfold argsort_merge.
  rewrite take_at_pairs.
  - apply (Sorted_fmap snd pair_le str_le); [by intros ??|].
    apply Sorted_merge_sort, _.
  - rewrite merge_sort_Permutation.
    eapply Forall_impl; [apply (zip_seq_lookup keys 0)|].
    intros [i v] (j & Hi & Hj). simpl in *. by subst i.
Qed.

Lemma argsort_quicksort_orders keys :
  orders keys (argsort_quicksort keys) = true.
Proof.
  unfold argsort_quicksort.
  destruct (orders keys (aquicksort keys (length keys))) eqn:E; [exact E|].
  unfold orders. apply andb_true_iff.
  split; apply bool_decide_eq_true;
    [apply argsort_merge_perm|apply argsort_merge_sorted].
Qed.

Lemma argsort_quicksort_perm keys :
  argsort_quicksort keys ≡ₚ seq 0 (length keys).
Proof.
  pose proof (argsort_quicksort_orders keys) as H.
  apply andb_true_iff in H as [H _]. by apply bool_decide_eq_true in H.
Qed.

Lemma argsort_quicksort_sorted keys :
  Sorted str_le (take_at (argsort_quicksort keys) keys).
Proof.
  pose proof (argsort_quicksort_orders keys) as H.
  apply andb_true_iff in H as [_ H]. by apply bool_decide_eq_true in H.
Qed.

(** numpy's quicksort as the sorting routine of [sort_values]. *)
#[global] Instance numpy_quicksort : ArgSort := {|
  argsort := argsort_quicksort;
  argsort_perm := argsort_quicksort_perm;
  argsort_sorted := argsort_quicksort_sorted
|}.

(** ** Rows and labels *)

Lemma str_eqb_eq a b : str_eqb a b = true ↔ a = b.
Proof. unfold str_eqb. apply bool_decide_eq_true. Qed.

Lemma inb_true x xs : inb x xs = true ↔ x ∈ xs.
Proof. unfold inb. apply bool_decide_eq_true. Qed.

Lemma inb_false x xs : inb x xs = false ↔ x ∉ xs.
Proof. unfold inb. apply bool_decide_eq_false. Qed.

Lemma getitem_notin row key :
  key ∉ index row → getitem row key = Raise (KeyError key).
Proof.
  induction row as [|[k v] row IH]; simpl; [done|].
  intros Hn. apply not_elem_of_cons in Hn as [Hne Hn].
  destruct (str_eqb k key) eqn:E.
  - apply str_eqb_eq in E. congruence.
  - by apply IH.
Qed.

Lemma getitem_in row key :
  key ∈ index row → ∃ v, getitem row key = Ok v.
Proof.
  induction row as [|[k v] row IH]; simpl.
  - by intros ?%elem_of_nil.
  - intros Hin. destruct (str_eqb k key) eqn:E; [by eexists|].
    apply elem_of_cons in Hin as [->|Hin]; [|by apply IH].
    assert (str_eqb k k = true) by by apply str_eqb_eq.
    congruence.
Qed.

Lemma getitem_zip_map (labels : list pystr) (f : pystr → cell) key :
  key ∈ labels → getitem (zip labels (map f labels)) key = Ok (f key).
Proof.
  induction labels as [|k labels IH]; simpl.
  - by intros ?%elem_of_nil.
  - intros Hin. destruct (str_eqb k key) eqn:E.
    + apply str_eqb_eq in E. by subst.
    + apply elem_of_cons in Hin as [->|Hin]; [|by apply IH].
      assert (str_eqb k k = true) by by apply str_eqb_eq.
      congruence.
Qed.

Lemma index_zip_map (labels : list pystr) (f : pystr → cell) :
  index (zip labels (map f labels)) = labels.
Proof. unfold index. apply fst_zip. by rewrite length_map. Qed.

Lemma index_series df r :
  length r = length (columns df) → index (series df r) = columns df.
Proof. intros E. unfold index, series. apply fst_zip. lia. Qed.

Lemma concat_full dataframes : full (concat dataframes).
Proof.
  unfold full, concat. simpl.
  apply Forall_forall. intros r Hr.
  apply list_elem_of_In, in_flat_map in Hr as (df & _ & Hr).
  apply in_map_iff in Hr as (r0 & <- & _).
  unfold reindex. by rewrite length_map.
Qed.

Lemma loc_map (labels : list pystr) (f : pystr → cell) rs key :
  key ∈ labels → loc (mkDataFrame labels rs) (map f labels) key = f key.
Proof. intros Hin. unfold loc, series. simpl. by rewrite getitem_zip_map. Qed.

(** ** The loops of [extract_filters] in closed form *)

Lemma for_each_cons {A B : Type} (body : B → A → result B) x l acc :
  for_each body (x :: l) acc =
  match body acc x with
  | Ok acc' => for_each body l acc'
  | Raise e => Raise e
  end.
Proof. done. Qed.

Lemma for_each_direct row keys acc :
  for_each (direct_step row) keys acc = Ok (acc ++ omap (direct_value row) keys).
Proof.
  revert acc. induction keys as [|key keys IH]; intros acc.
  - simpl. by rewrite app_nil_r.
  - rewrite for_each_cons.
    change (omap (direct_value row) (key :: keys))
      with (match direct_value row key with
            | Some s => s :: omap (direct_value row) keys
            | None => omap (direct_value row) keys
            end).
    unfold direct_step, direct_value.
    destruct (inb key (index row)) eqn:E.
    + apply inb_true, getitem_in in E as [v Hv]. rewrite Hv.
      destruct v as [|s]; simpl.
      * by rewrite IH.
      * destruct (truthy (strip s)); simpl; rewrite IH; [|done].
        by rewrite <- app_assoc.
    + apply inb_false, getitem_notin in E. rewrite E. by rewrite IH.
Qed.

Lemma for_each_boolean row cols acc :
  Forall (fun c => c ∈ index row) cols →
  for_each (boolean_step row) cols acc =
  Ok (acc ++ map label_of (filter (fun c => affirmative row c = true) cols)).
Proof.
  intros Hall. revert acc.
  induction Hall as [|col cols Hin _ IH]; intros acc.
  - simpl. by rewrite app_nil_r.
  - rewrite for_each_cons. unfold boolean_step.
    destruct (getitem_in _ _ Hin) as [v Hv]. rewrite Hv.
    assert (affirmative row col = inb (lower (strip (str v))) YES_VALUES)
      as Ha by (unfold affirmative; by rewrite Hv).
    rewrite filter_cons. simpl.
    destruct (inb (lower (strip (str v))) YES_VALUES) eqn:E.
    + rewrite IH. rewrite decide_True by done. simpl.
      by rewrite <- app_assoc.
    + rewrite IH. rewrite decide_False; [done|]. by rewrite Ha.
Qed.

Lemma extract_filters_closed row source_columns :
  Forall (fun c => c ∈ index row) (boolean_cols source_columns) →
  extract_filters row source_columns =
  Ok (filters_cell (direct_filters row ++ flag_filters row source_columns)).
Proof.
  intros Hall. unfold extract_filters.
  rewrite for_each_direct. simpl.
  rewrite for_each_boolean by done. simpl.
  unfold filters_cell, direct_filters, flag_filters.
  by destruct (_ ++ _).
Qed.

(** ** Column assignment *)

Lemma zip_with_map_map {X A B C : Type} (h : A → B → C) (g : X → A)
    (f : X → B) (xs : list X) :
  zip_with h (map g xs) (map f xs) = map (fun x => h (g x) (f x)) xs.
Proof. induction xs as [|x xs IH]; simpl; [done|]. by rewrite IH. Qed.

Lemma setitem_first {X : Type} (xs : list X) (f : X → cell) label :
  setitem (mkDataFrame [] []) label (map f xs) =
  mkDataFrame [label] (map (fun x => [f x]) xs).
Proof. unfold setitem. simpl. by rewrite map_map. Qed.

Lemma setitem_fresh {X : Type} (xs : list X) labels (g : X → list cell)
    (f : X → cell) label :
  labels ≠ [] → label ∉ labels →
  setitem (mkDataFrame labels (map g xs)) label (map f xs) =
  mkDataFrame (labels ++ [label]) (map (fun x => g x ++ [f x]) xs).
Proof.
  intros Hne Hn. unfold setitem. simpl.
  assert (list_find (fun c => c = label) labels = None) as ->.
  { apply list_find_None, Forall_forall. intros c Hc ->. done. }
  destruct labels; [done|]. by rewrite zip_with_map_map.
Qed.

Lemma getcol_in df label :
  label ∈ columns df →
  getcol df label = Ok (map (fun r => loc df r label) (rows df)).
Proof. intros Hin. unfold getcol. by apply inb_true in Hin as ->. Qed.

(** ** The reconciliation loop in closed form *)

Lemma next_match_in sources current_cols m :
  next_match sources current_cols = Some m → m ∈ sources ∧ m ∈ current_cols.
Proof.
  unfold next_match. intros H.
  assert (m ∈ filter (fun s => s ∈ current_cols) sources) as Hin.
  { destruct (filter _ sources) as [|x l]; simplify_eq/=. by left. }
  by apply list_elem_of_filter in Hin as [? ?].
Qed.

Lemma map_field_closed raw_df lg labels (g : list cell → list cell) item :
  labels ≠ [] → fst item ∉ labels →
  map_field raw_df (columns raw_df)
    (lg, mkDataFrame labels (map g (rows raw_df))) item =
  Ok (lg ++ [field_record raw_df item],
      mkDataFrame (labels ++ [fst item])
        (map (fun r => g r ++ [field_value raw_df (snd item) r])
           (rows raw_df))).
Proof.
  intros Hne Hn. destruct item as [target sources]. simpl in *.
  unfold map_field, field_record, field_value. simpl.
  assert (setitem_scalar (mkDataFrame labels (map g (rows raw_df))) target nan
          = mkDataFrame (labels ++ [target])
              (map (fun r => g r ++ [nan]) (rows raw_df))) as Hscalar.
  { unfold setitem_scalar. simpl. rewrite length_map.
    rewrite <- (setitem_fresh (rows raw_df) labels g (fun _ => nan)) by done.
    f_equal. induction (rows raw_df) as [|r rs IH]; simpl; [done|].
    by rewrite IH. }
  destruct (next_match sources (columns raw_df)) as [m|] eqn:E.
  - destruct (truthy m).
    + apply next_match_in in E as [_ Hm]. rewrite (getcol_in _ _ Hm).
      simpl. by rewrite setitem_fresh.
    + by rewrite Hscalar.
  - by rewrite Hscalar.
Qed.

Lemma for_each_map_field raw_df items : ∀ lg labels (g : list cell → list cell),
  labels ≠ [] → NoDup (labels ++ map fst items) →
  for_each (map_field raw_df (columns raw_df)) items
    (lg, mkDataFrame labels (map g (rows raw_df))) =
  Ok (lg ++ map (field_record raw_df) items,
      mkDataFrame (labels ++ map fst items)
        (map (fun r =>
                g r ++ map (fun item => field_value raw_df (snd item) r) items)
           (rows raw_df))).
Proof.
  induction items as [|item items IH]; intros lg labels g Hne Hnd.
  - simpl. rewrite !app_nil_r.
    rewrite (map_ext (fun r => g r ++ []) g); [done|].
    intros r. by rewrite app_nil_r.
  - rewrite for_each_cons.
    simpl in Hnd.
    assert (fst item ∉ labels) as Hfresh.
    { apply NoDup_app in Hnd as (_ & Hd & _). intros Hin.
      apply (Hd _ Hin). left. }
    rewrite map_field_closed by done.
    rewrite (IH _ _ (fun r => g r ++ [field_value raw_df (snd item) r])).
    + simpl. rewrite <- !app_assoc. simpl.
      rewrite (map_ext
        (fun r => (g r ++ [field_value raw_df (snd item) r]) ++
                  map (fun item0 => field_value raw_df (snd item0) r) items)
        (fun r => g r ++ field_value raw_df (snd item) r ::
                  map (fun item0 => field_value raw_df (snd item0) r) items));
        [done|].
      intros r. by rewrite <- app_assoc.
    + by destruct labels.
    + rewrite <- app_assoc. simpl. done.
Qed.

(** ** The canonical frame in closed form *)

Lemma canonical_nodup : NoDup CANONICAL.
Proof. apply (bool_decide_unpack _). by vm_compute. Qed.

Lemma pick_row (a fl : cell) (fv : list pystr → cell) :
  ([a] ++ map (fun item => fv (snd item)) MAPPING) ++ [fl] =
  map (pick a fl fv) CANONICAL.
Proof. vm_compute. reflexivity. Qed.

Lemma boolean_cols_subseteq source_columns :
  Forall (fun c => c ∈ source_columns) (boolean_cols source_columns).
Proof.
  apply Forall_forall. intros c Hc.
  by apply list_elem_of_filter in Hc as [_ ?].
Qed.

Lemma mapM_cons {A B : Type} (f : A → result B) x l :
  mapM f (x :: l) =
  match f x with
  | Ok y => match mapM f l with
            | Ok k => Ok (y :: k)
            | Raise e => Raise e
            end
  | Raise e => Raise e
  end.
Proof. done. Qed.

Lemma apply_extract_filters_closed raw_df :
  full raw_df →
  apply_extract_filters raw_df = Ok (map (row_filters raw_df) (rows raw_df)).
Proof.
  unfold apply_extract_filters, full.
  induction 1 as [|r rs Hr _ IH]; [done|].
  rewrite mapM_cons, IH.
  rewrite extract_filters_closed; [done|].
  rewrite index_series by done. apply boolean_cols_subseteq.
Qed.

Lemma canonical_frame_closed raw_df lg :
  full raw_df → ID_COLUMN ∈ columns raw_df →
  canonical_frame raw_df lg =
  Ok (lg ++ map (field_record raw_df) MAPPING ++ [(INFO, ProcessingFilters)],
      mkDataFrame CANONICAL
        (map (fun r => map (canonical_value raw_df r) CANONICAL)
           (rows raw_df))).
Proof.
  intros Hfull Hid. unfold canonical_frame, reconcile.
  rewrite (getcol_in _ _ Hid).
  change (Ok ?a ≫= ?f) with (f a). cbv beta.
  rewrite setitem_first.
  rewrite (for_each_map_field raw_df MAPPING lg [ID_COLUMN]
             (fun r => [loc raw_df r ID_COLUMN])).
  - change (Ok ?a ≫= ?f) with (f a). cbv beta iota.
    rewrite (apply_extract_filters_closed _ Hfull).
    change (Ok ?a ≫= ?f) with (f a). cbv beta.
    rewrite setitem_fresh.
    + rewrite <- app_assoc.
      rewrite (map_ext _ (fun r => map (canonical_value raw_df r) CANONICAL));
        [reflexivity|].
      intros r.
      exact (pick_row (loc raw_df r ID_COLUMN) (row_filters raw_df r)
               (fun sources => field_value raw_df sources r)).
    + done.
    + apply (bool_decide_unpack _). by vm_compute.
  - done.
  - apply (bool_decide_unpack _). by vm_compute.
Qed.

(** ** The merge in closed form *)

Lemma filter_map {X Y : Type} (h : X → Y) (P : Y → Prop)
    `{!∀ y, Decision (P y)} (xs : list X) :
  filter P (map h xs) = map h (filter (fun x => P (h x)) xs).
Proof.
  induction xs as [|x xs IH]; [done|].
  simpl. rewrite !filter_cons. case_decide; simpl; by rewrite IH.
Qed.

Lemma groupby_agg_closed {X : Type} (xs : list X) labels
    (g : X → pystr → cell) key func :
  key ∈ labels →
  groupby_agg (mkDataFrame labels (map (fun x => map (g x) labels) xs))
    key func =
  Ok (mkDataFrame (key :: filter (fun c => c ≠ key) labels)
        (map (fun k =>
                text k ::
                map (fun c =>
                       func (map (fun x => g x c)
                               (filter (fun x => g x key = text k) xs)))
                  (filter (fun c => c ≠ key) labels))
           (group_keys (map (fun x => g x key) xs)))).
Proof.
  intros Hkey. unfold groupby_agg.
  rewrite getcol_in by done.
  change (Ok ?a ≫= ?f) with (f a). cbv beta. simpl columns. simpl rows.
  rewrite map_map.
  rewrite (map_ext (fun x => loc _ (map (g x) labels) key) (fun x => g x key))
    by (intros x; by apply loc_map).
  do 2 f_equal. apply map_ext. intros k. f_equal.
  apply map_ext_in. intros c Hc.
  apply list_elem_of_In, list_elem_of_filter in Hc as [_ Hc].
  f_equal. rewrite filter_map, map_map.
  rewrite (list_filter_iff _ (fun x => g x key = text k))
    by (intros x; by rewrite loc_map).
  apply map_ext. intros x. by apply loc_map.
Qed.

Lemma canonical_value_id raw_df r :
  canonical_value raw_df r ID_COLUMN = loc raw_df r ID_COLUMN.
Proof. done. Qed.

Lemma merged_row_shape (v : cell) (h : pystr → cell) :
  v :: map h (filter (fun c => c ≠ ID_COLUMN) CANONICAL) =
  map (fun field => if str_eqb field ID_COLUMN then v else h field) CANONICAL.
Proof. vm_compute. reflexivity. Qed.

Lemma id_in_canonical : ID_COLUMN ∈ CANONICAL.
Proof. left. Qed.

Lemma manufacturer_in_canonical : MANUFACTURER ∈ CANONICAL.
Proof. right. left. Qed.

Lemma merge_duplicates_closed raw_df :
  merge_duplicates
    (mkDataFrame CANONICAL
       (map (fun r => map (canonical_value raw_df r) CANONICAL)
          (rows raw_df))) =
  Ok (mkDataFrame CANONICAL (merged_rows raw_df)).
Proof.
  unfold merge_duplicates.
  rewrite (groupby_agg_closed (rows raw_df) CANONICAL (canonical_value raw_df))
    by apply id_in_canonical.
  unfold merged_rows, merged_keys.
  rewrite (map_ext _ (fun k => map (merged_value raw_df k) CANONICAL));
    [reflexivity|].
  intros k.
  exact (merged_row_shape (text k)
           (fun c => first_valid
                       (map (fun r => canonical_value raw_df r c)
                          (group_of raw_df k)))).
Qed.

(** ** The sort and the whole run in closed form *)

Lemma sort_by_manufacturer_closed `{ArgSort} raw_df :
  sort_by_manufacturer (mkDataFrame CANONICAL (merged_rows raw_df)) =
  Ok (mkDataFrame CANONICAL (final_rows raw_df)).
Proof.
  unfold sort_by_manufacturer, sort_values. simpl columns.
  assert (inb MANUFACTURER CANONICAL = true) as -> by by vm_compute.
  rewrite getcol_in by apply manufacturer_in_canonical.
  change (Ok ?a ≫= ?f) with (f a). cbv beta. simpl columns. simpl rows.
  unfold final_rows, sort_keys, merged_rows. rewrite map_map.
  rewrite (map_ext _ (fun k => merged_value raw_df k MANUFACTURER));
    [reflexivity|].
  intros k. apply loc_map, manufacturer_in_canonical.
Qed.

Lemma build_catalog_closed `{ArgSort} raw_df lg :
  full raw_df → ID_COLUMN ∈ columns raw_df →
  build_catalog raw_df lg =
  Ok (lg ++ catalog_log raw_df, mkDataFrame CANONICAL (final_rows raw_df)).
Proof.
  intros Hfull Hid. unfold build_catalog.
  rewrite canonical_frame_closed by done.
  change (Ok ?a ≫= ?f) with (f a). cbv beta iota.
  rewrite merge_duplicates_closed.
  change (Ok ?a ≫= ?f) with (f a). cbv beta.
  rewrite sort_by_manufacturer_closed.
  change (Ok ?a ≫= ?f) with (f a). cbv beta. simpl rows.
  unfold catalog_log. by rewrite <- !app_assoc.
Qed.

Lemma load_files_frames files : ∀ n lg acc,
  snd (load_files files n lg acc) = acc ++ loaded_frames files.
Proof.
  induction files as [|[df|] files IH]; intros n lg acc; simpl.
  - by rewrite app_nil_r.
  - rewrite IH. by rewrite <- app_assoc.
  - by rewrite IH.
Qed.

Lemma load_data_some files lg raw_df :
  load_data files = (lg, Some raw_df) →
  loaded_frames files ≠ [] ∧ raw_df = concat (loaded_frames files).
Proof.
  unfold load_data. destruct files as [|f files]; [done|].
  pose proof (load_files_frames (f :: files) 0
                [(INFO, FilesFound (length (f :: files)))] []) as Hfr.
  destruct (load_files _ _ _ _) as [lg' dfs]. simpl in Hfr. subst dfs.
  destruct (loaded_frames (f :: files)) eqn:E; [done|].
  intros [= <- <-]. done.
Qed.

(** With headers that stay distinct when stripped, every frame that
    [load_data] concatenates has distinct labels, as the functions on
    frames suppose. *)
Lemma loaded_frames_distinct_labels files :
  distinct_headers files →
  Forall (fun df => NoDup (columns df)) (loaded_frames files).
Proof.
  unfold distinct_headers, loaded_frames. intros Hd.
  apply Forall_fmap. exact Hd.
Qed.

Lemma process_catalog_closed `{ArgSort} files lg raw_df :
  load_data files = (lg, Some raw_df) →
  ID_COLUMN ∈ columns raw_df →
  process_catalog files =
  Ok (lg ++ [(INFO, BuildingCatalog)] ++ catalog_log raw_df,
      Saved (mkDataFrame CANONICAL (final_rows raw_df))).
Proof.
  intros Hload Hid. unfold process_catalog. rewrite Hload.
  apply inb_true in Hid as Hb. rewrite Hb.
  rewrite build_catalog_closed; [|
    apply load_data_some in Hload as [_ ->]; apply concat_full | done].
  change (Ok ?a ≫= ?f) with (f a). cbv beta iota.
  by rewrite <- app_assoc.
Qed.

(** ** Distinct keys, permutations and the first valid value *)

Lemma elem_of_unique x l : x ∈ unique l ↔ x ∈ l.
Proof.
  induction l as [|y l IH]; simpl; [done|].
  rewrite !elem_of_cons, list_elem_of_filter, IH.
  destruct (decide (x = y)); tauto.
Qed.

Lemma NoDup_unique l : NoDup (unique l).
Proof.
  induction l as [|y l IH]; simpl; constructor.
  - rewrite list_elem_of_filter. by intros [? _].
  - by apply NoDup_filter.
Qed.

Lemma merged_keys_perm raw_df :
  merged_keys raw_df ≡ₚ
  unique (omap text_of (map (fun r => loc raw_df r ID_COLUMN) (rows raw_df))).
Proof. unfold merged_keys, group_keys. apply merge_sort_Permutation. Qed.

Lemma elem_of_merged_keys raw_df k :
  k ∈ merged_keys raw_df ↔
  ∃ r, r ∈ rows raw_df ∧ loc raw_df r ID_COLUMN = text k.
Proof.
  rewrite merged_keys_perm, elem_of_unique, list_elem_of_omap.
  split.
  - intros (v & Hv & Hk). apply list_elem_of_fmap in Hv as (r & -> & Hr).
    exists r. split; [done|]. by destruct (loc raw_df r ID_COLUMN); simplify_eq/=.
  - intros (r & Hr & Hk). exists (text k). split; [|done].
    rewrite <- Hk. apply list_elem_of_fmap. by exists r.
Qed.

Lemma take_at_cons {A : Type} i indexer (l : list A) :
  take_at (i :: indexer) l =
  match l !! i with
  | Some x => x :: take_at indexer l
  | None => take_at indexer l
  end.
Proof. done. Qed.

Lemma take_at_shift {A : Type} (x : A) l n : ∀ s,
  take_at (seq (S s) n) (x :: l) = take_at (seq s n) l.
Proof.
  unfold take_at. induction n as [|n IH]; intros s; [done|].
  simpl. by rewrite IH.
Qed.

Lemma take_at_seq {A : Type} (l : list A) : take_at (seq 0 (length l)) l = l.
Proof.
  induction l as [|x l IH]; [done|].
  simpl length. simpl seq. unfold take_at at 1. simpl.
  f_equal. rewrite <- IH at 2. apply take_at_shift.
Qed.

Lemma take_at_perm {A : Type} (indexer : list nat) (l : list A) :
  indexer ≡ₚ seq 0 (length l) → take_at indexer l ≡ₚ l.
Proof.
  intros Hp. rewrite <- (take_at_seq l) at 2.
  unfold take_at. by rewrite Hp.
Qed.

Lemma take_at_map {A B : Type} (f : A → B) indexer (l : list A) :
  take_at indexer (map f l) = map f (take_at indexer l).
Proof.
  induction indexer as [|i indexer IH]; [done|].
  rewrite !take_at_cons, list_lookup_fmap.
  destruct (l !! i); simpl; by rewrite IH.
Qed.

Lemma length_merged_rows raw_df :
  length (merged_rows raw_df) = length (sort_keys raw_df).
Proof. unfold merged_rows, sort_keys. by rewrite !length_map. Qed.

Lemma filter_none {A : Type} (P : A → Prop) `{!∀ x, Decision (P x)} (l : list A) :
  Forall (fun x => ¬ P x) l → filter P l = [].
Proof.
  induction 1 as [|x l Hx _ IH]; [done|].
  by rewrite filter_cons, decide_False.
Qed.

Lemma filter_all {A : Type} (P : A → Prop) `{!∀ x, Decision (P x)} (l : list A) :
  Forall P l → filter P l = l.
Proof.
  induction 1 as [|x l Hx _ IH]; [done|].
  rewrite filter_cons, decide_True by done. by f_equal.
Qed.

Lemma take_at_app {A : Type} indexer1 indexer2 (l : list A) :
  take_at (indexer1 ++ indexer2) l = take_at indexer1 l ++ take_at indexer2 l.
Proof. apply omap_app. Qed.

Lemma take_at_take_at {A : Type} (indexer l1 : list nat) (l2 : list A) :
  Forall (fun i => is_Some (l2 !! i)) l1 →
  take_at (take_at indexer l1) l2 = take_at indexer (take_at l1 l2).
Proof.
  intros Hv.
  assert (∀ i, take_at l1 l2 !! i = l1 !! i ≫= (fun j => l2 !! j)) as Hlk.
  { induction Hv as [|j l1 [x Hj] _ IH]; intros i; [done|].
    rewrite take_at_cons, Hj.
    destruct i as [|i]; simpl; [by rewrite Hj|apply IH]. }
  induction indexer as [|i indexer IH]; [done|].
  rewrite !take_at_cons, Hlk.
  destruct (l1 !! i) as [j|]; [|exact IH].
  change (Some j ≫= ?g) with (g j). cbv beta.
  rewrite take_at_cons. destruct (l2 !! j); by rewrite IH.
Qed.

Lemma select_cons {A : Type} b mask (x : A) l :
  select (b :: mask) (x :: l) =
  if b then x :: select mask l else select mask l.
Proof.
  unfold select. simpl. rewrite filter_cons. simpl.
  destruct b; by case_decide.
Qed.

Lemma elem_of_select {A : Type} (mask : list bool) (l : list A) x :
  x ∈ select mask l → x ∈ l.
Proof.
  revert l. induction mask as [|b mask IH]; intros l.
  { unfold select. simpl. by intros ?%elem_of_nil. }
  destruct l as [|y l].
  { unfold select. simpl. by intros ?%elem_of_nil. }
  rewrite select_cons. destruct b.
  - intros [->|Hx]%elem_of_cons; [left|right; by apply IH].
  - intros Hx. right. by apply IH.
Qed.

Lemma take_at_select {A : Type} (g : A → bool) (l : list A) : ∀ pre,
  take_at (select (map g l) (seq (length pre) (length l))) (pre ++ l) =
  filter (fun x => g x = true) l.
Proof.
  induction l as [|x l IH]; intros pre; [done|].
  simpl length. simpl seq. simpl map. rewrite select_cons, filter_cons.
  specialize (IH (pre ++ [x])).
  rewrite length_app, Nat.add_1_r, <- app_assoc in IH. simpl in IH.
  destruct (g x) eqn:E.
  - rewrite take_at_cons, lookup_app_r, Nat.sub_diag by lia.
    cbn [lookup list_lookup]. rewrite decide_True by done.
    f_equal. exact IH.
  - rewrite decide_False by done. exact IH.
Qed.

Lemma take_at_select_all {A : Type} (g : A → bool) (l : list A) :
  take_at (select (map g l) (seq 0 (length l))) l =
  filter (fun x => g x = true) l.
Proof. exact (take_at_select g l []). Qed.

(** The rows taken with the indexer of [nargsort] for their keys: those
    with a key, arranged by the sorting routine, then those without, in
    their order. *)
Lemma take_at_nargsort `{ArgSort} {A : Type} (f : A → cell) (l : list A) :
  take_at (nargsort (map f l)) l =
  take_at (argsort (omap text_of (map f l)))
    (filter (fun x => notna (f x) = true) l) ++
  filter (fun x => notna (f x) = false) l.
Proof.
  unfold nargsort. rewrite take_at_app, !map_map, length_map.
  f_equal.
  - rewrite take_at_take_at.
    + f_equal.
      rewrite (take_at_select_all (fun x => negb (negb (notna (f x)))) l).
      apply list_filter_iff. intros x. by rewrite negb_involutive.
    + apply Forall_forall. intros i Hi%elem_of_select.
      apply lookup_lt_is_Some. apply elem_of_seq in Hi. lia.
  - rewrite (take_at_select_all (fun x => negb (notna (f x))) l).
    apply list_filter_iff. intros x. by rewrite negb_true_iff.
Qed.

Lemma length_omap_text_of {A : Type} (f : A → cell) (l : list A) :
  length (omap text_of (map f l)) =
  length (filter (fun x => notna (f x) = true) l).
Proof.
  induction l as [|x l IH]; [done|].
  rewrite filter_cons. cbn [map omap list_omap].
  destruct (f x) as [|s]; cbn [text_of notna].
  - rewrite decide_False by done. exact IH.
  - rewrite decide_True by done. cbn [length]. f_equal. exact IH.
Qed.

Lemma take_at_nargsort_perm `{ArgSort} {A : Type} (f : A → cell) (l : list A) :
  take_at (nargsort (map f l)) l ≡ₚ l.
Proof.
  rewrite take_at_nargsort.
  rewrite take_at_perm
    by (rewrite <- length_omap_text_of; apply argsort_perm).
  rewrite <- (filter_app_complement (fun x => notna (f x) = true) l) at 3.
  f_equiv. apply reflexive_eq, list_filter_iff.
  intros x. by destruct (notna (f x)).
Qed.

(** The saved rows in terms of the merged identifiers. *)
Lemma final_rows_closed `{ArgSort} raw_df :
  final_rows raw_df =
  map (fun k => map (merged_value raw_df k) CANONICAL)
    (take_at (argsort (omap text_of (sort_keys raw_df)))
       (filter (fun k => notna (merged_value raw_df k MANUFACTURER) = true)
          (merged_keys raw_df)) ++
     filter (fun k => notna (merged_value raw_df k MANUFACTURER) = false)
       (merged_keys raw_df)).
Proof.
  unfold final_rows, merged_rows. rewrite take_at_map. f_equal.
  unfold sort_keys. apply take_at_nargsort.
Qed.

Lemma final_rows_perm `{ArgSort} raw_df :
  final_rows raw_df ≡ₚ merged_rows raw_df.
Proof.
  unfold final_rows, merged_rows. rewrite take_at_map.
  apply fmap_Permutation. unfold sort_keys. apply take_at_nargsort_perm.
Qed.

Lemma first_valid_cons x xs :
  first_valid (x :: xs) = match x with nan => first_valid xs | text _ => x end.
Proof.
  unfold first_valid, dropna. rewrite filter_cons.
  destruct x; [|done].
  by rewrite decide_False.
Qed.

Lemma first_valid_spec xs : first_non_missing xs (first_valid xs).
Proof.
  induction xs as [|x xs IH].
  - right. split; [constructor|done].
  - rewrite first_valid_cons. destruct x as [|s].
    + destruct IH as [(pre & s & post & -> & Hpre & Hv)|[Hall Hv]].
      * left. exists (nan :: pre), s, post. split; [done|].
        split; [by constructor|done].
      * right. split; [by constructor|done].
    + left. exists [], s, xs. split; [done|]. split; [constructor|done].
Qed.

(** ** Rows of the canonical, merged and final frames *)

Lemma temp_frame_group raw_df k :
  filter (fun r => loc (temp_frame raw_df) r ID_COLUMN = text k)
    (rows (temp_frame raw_df)) =
  map (fun r => map (canonical_value raw_df r) CANONICAL) (group_of raw_df k).
Proof.
  assert (∀ r, loc (temp_frame raw_df)
                 (map (canonical_value raw_df r) CANONICAL) ID_COLUMN = text k
               ↔ loc raw_df r ID_COLUMN = text k) as Hiff.
  { intros r. unfold temp_frame. by rewrite loc_map by apply id_in_canonical. }
  change (rows (temp_frame raw_df))
    with (map (fun r => map (canonical_value raw_df r) CANONICAL)
            (rows raw_df)).
  rewrite filter_map. apply (f_equal (map _)).
  apply list_filter_iff, Hiff.
Qed.

Lemma temp_frame_group_column raw_df k field :
  field ∈ CANONICAL →
  map (fun r => loc (temp_frame raw_df) r field)
    (filter (fun r => loc (temp_frame raw_df) r ID_COLUMN = text k)
       (rows (temp_frame raw_df))) =
  map (fun r => canonical_value raw_df r field) (group_of raw_df k).
Proof.
  intros Hf. rewrite temp_frame_group, map_map.
  apply map_ext. intros r. by apply loc_map.
Qed.

Lemma elem_of_final_rows `{ArgSort} raw_df row :
  row ∈ final_rows raw_df ↔
  ∃ k, k ∈ merged_keys raw_df ∧ row = map (merged_value raw_df k) CANONICAL.
Proof.
  rewrite final_rows_perm. unfold merged_rows.
  rewrite list_elem_of_fmap. split.
  - intros (k & -> & Hk). by exists k.
  - intros (k & Hk & ->). by exists k.
Qed.

Lemma loc_final_frame `{ArgSort} raw_df k field :
  field ∈ CANONICAL →
  loc (final_frame raw_df) (map (merged_value raw_df k) CANONICAL) field =
  merged_value raw_df k field.
Proof. intros Hf. by apply loc_map. Qed.

Lemma elem_of_group_of raw_df k r :
  r ∈ group_of raw_df k ↔ loc raw_df r ID_COLUMN = text k ∧ r ∈ rows raw_df.
Proof.
  unfold group_of.
  apply (list_elem_of_filter (fun r => loc raw_df r ID_COLUMN = text k)).
Qed.

Lemma merged_value_spec raw_df k field :
  k ∈ merged_keys raw_df →
  first_non_missing
    (map (fun r => canonical_value raw_df r field) (group_of raw_df k))
    (merged_value raw_df k field).
Proof.
  intros Hk. unfold merged_value.
  destruct (str_eqb field ID_COLUMN) eqn:E; [|apply first_valid_spec].
  apply str_eqb_eq in E. subst field.
  apply elem_of_merged_keys in Hk as (r & Hr & Hid).
  assert (r ∈ group_of raw_df k) as Hin by by apply elem_of_group_of.
  destruct (group_of raw_df k) as [|r0 rest] eqn:Eg.
  - by apply elem_of_nil in Hin.
  - assert (r0 ∈ group_of raw_df k) as Hr0 by (rewrite Eg; left).
    apply elem_of_group_of in Hr0 as [Hr0 _].
    left. exists [], k, (map (fun r => canonical_value raw_df r ID_COLUMN) rest).
    split; [|split; [constructor|done]].
    simpl. by rewrite canonical_value_id, Hr0.
Qed.

(** C1: the duplicate merge reduces every field of every group on its own
    to the first non-missing value in row order, missing when all rows of
    the group are missing; disagreeing rows raise nothing.
    For sheets of texts and blanks whose stripped headers are distinct. *)
Theorem merge_first_non_missing `{ArgSort} reads files lg raw_df :
  frames_of reads = Some files →
  distinct_headers files →
  load_data files = (lg, Some raw_df) →
  ID_COLUMN ∈ columns raw_df →
  ∃ lg1 temp_df lg2 final_df,
    canonical_frame raw_df (lg ++ [(INFO, BuildingCatalog)])
      = Ok (lg1, temp_df) ∧
    process_catalog files = Ok (lg2, Saved final_df) ∧
    columns temp_df = ID_COLUMN :: map fst MAPPING ++ [FILTERS_FIELD] ∧
    map (fun r => loc temp_df r ID_COLUMN) (rows temp_df) =
      map (fun r => loc raw_df r ID_COLUMN) (rows raw_df) ∧
    (∀ r k, r ∈ rows temp_df → loc temp_df r ID_COLUMN = text k →
       ∃ row, row ∈ rows final_df ∧ loc final_df row ID_COLUMN = text k) ∧
    (∀ row, row ∈ rows final_df →
       ∃ k, loc final_df row ID_COLUMN = text k ∧
         ∀ field, field ∈ columns temp_df →
           first_non_missing
             (map (fun r => loc temp_df r field)
                (filter (fun r => loc temp_df r ID_COLUMN = text k)
                   (rows temp_df)))
             (loc final_df row field)).
Proof.
  intros _ _ Hload Hid.
  pose proof (load_data_some _ _ _ Hload) as [_ Hraw].
  assert (full raw_df) as Hfull by (rewrite Hraw; apply concat_full).
  eexists _, (temp_frame raw_df), _, (final_frame raw_df).
  split; [by apply canonical_frame_closed|].
  split; [by apply process_catalog_closed|].
  split; [done|].
  split.
  { unfold temp_frame. cbn [rows]. rewrite map_map.
    apply map_ext. intros r. by rewrite loc_map by apply id_in_canonical. }
  split.
  - intros tr k Htr Hk.
    apply list_elem_of_fmap in Htr as (r & -> & Hr).
    unfold temp_frame in Hk. rewrite loc_map in Hk by apply id_in_canonical.
    rewrite canonical_value_id in Hk.
    exists (map (merged_value raw_df k) CANONICAL). split.
    + apply elem_of_final_rows. exists k. split; [|done].
      apply elem_of_merged_keys. eauto.
    + by rewrite loc_final_frame by apply id_in_canonical.
  - intros row Hrow. change (row ∈ final_rows raw_df) in Hrow.
    apply elem_of_final_rows in Hrow as (k & Hk & ->).
    exists k. split; [by rewrite loc_final_frame by apply id_in_canonical|].
    intros field Hf. simpl in Hf.
    rewrite loc_final_frame by done.
    rewrite temp_frame_group_column by done.
    by apply merged_value_spec.
Qed.

(** C3, as amended: on a loaded dataset without the identifier column the
    run logs the error of the missing identifier and returns without
    saving: nothing is raised, no row is produced, no frame is built.
    For sheets of texts and blanks whose stripped headers are distinct. *)
Theorem identifier_required `{ArgSort} reads files lg raw_df :
  frames_of reads = Some files →
  distinct_headers files →
  load_data files = (lg, Some raw_df) →
  ID_COLUMN ∉ columns raw_df →
  process_catalog files =
  Ok (lg ++ [(INFO, BuildingCatalog); (ERROR, IdentifierNotFound)],
      NoIdentifier).
Proof.
  intros _ _ Hload Hid. unfold process_catalog. rewrite Hload.
  apply inb_false in Hid. rewrite Hid.
  by rewrite <- app_assoc.
Qed.

Lemma canonical_names : CANONICAL = map u CANONICAL_NAMES.
Proof. by vm_compute. Qed.

Lemma length_final_row `{ArgSort} raw_df row :
  row ∈ final_rows raw_df → length row = length CANONICAL.
Proof.
  intros (k & _ & ->)%elem_of_final_rows. by rewrite length_map.
Qed.

(** C9: every row of the saved frame has exactly the canonical fields, the
    identifier, the twelve keys of the alias map and the filters field, in
    that order, whatever columns the input had.
    For sheets of texts and blanks whose stripped headers are distinct. *)
Theorem canonical_schema `{ArgSort} reads files lg raw_df :
  frames_of reads = Some files →
  distinct_headers files →
  load_data files = (lg, Some raw_df) →
  ID_COLUMN ∈ columns raw_df →
  ∃ lg' final_df,
    process_catalog files = Ok (lg', Saved final_df) ∧
    columns final_df = map u CANONICAL_NAMES ∧
    columns final_df = ID_COLUMN :: map fst MAPPING ++ [FILTERS_FIELD] ∧
    length (map fst MAPPING) = 12%nat ∧
    NoDup (columns final_df) ∧
    ∀ row, row ∈ rows final_df →
      index (series final_df row) = columns final_df.
Proof.
  intros _ _ Hload Hid. eexists _, (final_frame raw_df).
  split; [by apply process_catalog_closed|].
  split; [apply canonical_names|].
  split; [done|]. split; [done|]. split; [apply canonical_nodup|].
  intros row Hrow. change (row ∈ final_rows raw_df) in Hrow.
  apply index_series. by apply (length_final_row raw_df).
Qed.

Lemma final_identifiers `{ArgSort} raw_df :
  map (fun row => loc (final_frame raw_df) row ID_COLUMN) (final_rows raw_df)
  ≡ₚ map text (distinct_identifiers raw_df).
Proof.
  rewrite final_rows_perm. unfold merged_rows. rewrite map_map.
  rewrite (map_ext _ text).
  - apply fmap_Permutation, merged_keys_perm.
  - intros k. by rewrite loc_final_frame by apply id_in_canonical.
Qed.

Lemma rows_concat dataframes :
  rows (concat dataframes) =
  flat_map
    (fun df => map (fun r => reindex (series df r) (columns (concat dataframes)))
                 (rows df))
    dataframes.
Proof. done. Qed.

Lemma loc_concat dataframes df r label :
  label ∈ columns (concat dataframes) →
  loc (concat dataframes)
    (reindex (series df r) (columns (concat dataframes))) label =
  loc df r label.
Proof.
  intros Hin. unfold loc at 1. unfold series at 1, reindex.
  by rewrite getitem_zip_map.
Qed.

Lemma elem_of_rows_concat dataframes row :
  row ∈ rows (concat dataframes) ↔
  ∃ df r, df ∈ dataframes ∧ r ∈ rows df ∧
          row = reindex (series df r) (columns (concat dataframes)).
Proof.
  rewrite rows_concat, list_elem_of_In, in_flat_map. split.
  - intros (df & Hdf & Hrow). apply in_map_iff in Hrow as (r & <- & Hr).
    exists df, r. by rewrite !list_elem_of_In.
  - intros (df & r & Hdf & Hr & ->). exists df.
    split; [by apply list_elem_of_In|].
    apply (in_map (fun r => reindex (series df r) _)).
    by apply list_elem_of_In.
Qed.

(** C6: the saved frame has one row per distinct identifier value of the
    rows of the sheets that were loaded, so as many rows as there are such
    values.
    For sheets of texts and blanks whose stripped headers are distinct. *)
Theorem distinct_identifier_count `{ArgSort} reads files lg raw_df :
  frames_of reads = Some files →
  distinct_headers files →
  load_data files = (lg, Some raw_df) →
  ID_COLUMN ∈ columns raw_df →
  ∃ lg' final_df,
    process_catalog files = Ok (lg', Saved final_df) ∧
    length (rows final_df) = length (distinct_identifiers raw_df) ∧
    NoDup (distinct_identifiers raw_df) ∧
    (∀ k, k ∈ distinct_identifiers raw_df ↔
          ∃ r, r ∈ rows raw_df ∧ loc raw_df r ID_COLUMN = text k) ∧
    (∀ k, k ∈ distinct_identifiers raw_df ↔
          ∃ df r, df ∈ loaded_frames files ∧ r ∈ rows df ∧
                  loc df r ID_COLUMN = text k) ∧
    map (fun row => loc final_df row ID_COLUMN) (rows final_df)
      ≡ₚ map text (distinct_identifiers raw_df).
Proof.
  intros _ _ Hload Hid. eexists _, (final_frame raw_df).
  split; [by apply process_catalog_closed|].
  split.
  { change (rows (final_frame raw_df)) with (final_rows raw_df).
    rewrite final_rows_perm. unfold merged_rows. rewrite length_map.
    by rewrite merged_keys_perm. }
  split; [apply NoDup_unique|].
  assert (∀ k, k ∈ distinct_identifiers raw_df ↔
               ∃ r, r ∈ rows raw_df ∧ loc raw_df r ID_COLUMN = text k) as Hk.
  { intros k. rewrite <- elem_of_merged_keys. by rewrite merged_keys_perm. }
  split; [exact Hk|]. split; [|apply final_identifiers].
  intros k. rewrite Hk.
  apply load_data_some in Hload as [_ Hraw]. subst raw_df. split.
  - intros (row & Hrow & Hloc).
    apply elem_of_rows_concat in Hrow as (df & r & Hdf & Hr & ->).
    exists df, r. by rewrite loc_concat in Hloc.
  - intros (df & r & Hdf & Hr & Hloc).
    exists (reindex (series df r) (columns (concat (loaded_frames files)))).
    split; [|by rewrite loc_concat].
    apply elem_of_rows_concat. by exists df, r.
Qed.

(** ** Rows without identifier *)

Lemma full_dropna_identifier raw_df :
  full raw_df → full (dropna_identifier raw_df).
Proof.
  unfold full. rewrite !Forall_forall. intros Hfull r Hr. simpl in *.
  apply list_elem_of_filter in Hr as [_ Hr]. by apply Hfull.
Qed.

Lemma omap_text_of_dropna {X : Type} (f : X → cell) (xs : list X) :
  omap text_of (map f (filter (fun x => f x ≠ nan) xs)) =
  omap text_of (map f xs).
Proof.
  induction xs as [|x xs IH]; [done|].
  rewrite filter_cons.
  destruct (decide (f x ≠ nan)) as [Hn|Hn]; simpl.
  - destruct (f x); simpl; [exact IH|]. f_equal. exact IH.
  - destruct (f x); simpl; [exact IH|]. exfalso. by apply Hn.
Qed.

Lemma merged_keys_dropna raw_df :
  merged_keys (dropna_identifier raw_df) = merged_keys raw_df.
Proof.
  unfold merged_keys, group_keys. do 2 f_equal.
  apply (omap_text_of_dropna (fun r => loc raw_df r ID_COLUMN)).
Qed.

Lemma group_of_dropna raw_df k :
  group_of (dropna_identifier raw_df) k = group_of raw_df k.
Proof.
  unfold group_of, dropna_identifier. simpl rows.
  rewrite (list_filter_filter
             (fun r => loc raw_df r ID_COLUMN = text k)
             (fun r => loc raw_df r ID_COLUMN ≠ nan)).
  apply list_filter_iff. intros r. split; [by intros [? _]|].
  intros Hk. split; [done|]. by rewrite Hk.
Qed.

Lemma merged_value_dropna raw_df k field :
  merged_value (dropna_identifier raw_df) k field =
  merged_value raw_df k field.
Proof. unfold merged_value. by rewrite group_of_dropna. Qed.

Lemma final_rows_dropna `{ArgSort} raw_df :
  final_rows (dropna_identifier raw_df) = final_rows raw_df.
Proof.
  unfold final_rows, sort_keys, merged_rows.
  rewrite merged_keys_dropna.
  rewrite (map_ext _ _ (fun k => merged_value_dropna raw_df k MANUFACTURER)).
  f_equal. apply map_ext. intros k.
  apply map_ext. intros field. apply merged_value_dropna.
Qed.

Lemma build_catalog_dropna `{ArgSort} raw_df lg :
  full raw_df → ID_COLUMN ∈ columns raw_df →
  build_catalog (dropna_identifier raw_df) lg = build_catalog raw_df lg.
Proof.
  intros Hfull Hid.
  rewrite (build_catalog_closed raw_df) by done.
  rewrite (build_catalog_closed (dropna_identifier raw_df));
    [|by apply full_dropna_identifier|done].
  unfold catalog_log. by rewrite final_rows_dropna.
Qed.

Lemma catalog_log_levels `{ArgSort} raw_df :
  Forall (fun record => fst record = INFO ∨
                        ∃ target, record = (WARNING, FieldNotFound target))
    (catalog_log raw_df).
Proof.
  unfold catalog_log. apply Forall_app. split.
  - apply Forall_forall. intros record Hr.
    apply list_elem_of_fmap in Hr as (item & -> & _).
    unfold field_record.
    destruct (next_match _ _) as [m|]; [destruct (truthy m)|]; eauto.
  - repeat constructor.
Qed.

(** C10: when the identifier column is there, a row whose identifier is
    missing is left out by the grouping without a trace: the run saves a
    frame, logs no error and nothing about such rows, every saved row has
    an identifier, and log and frame are those of the dataset without the
    rows that lack one.
    For sheets of texts and blanks whose stripped headers are distinct. *)
Theorem missing_identifier_rows_dropped `{ArgSort} reads files lg raw_df :
  frames_of reads = Some files →
  distinct_headers files →
  load_data files = (lg, Some raw_df) →
  ID_COLUMN ∈ columns raw_df →
  ∃ lg' final_df,
    process_catalog files =
      Ok (lg ++ (INFO, BuildingCatalog) :: lg', Saved final_df) ∧
    Forall (fun record => fst record = INFO ∨
                          ∃ target, record = (WARNING, FieldNotFound target))
      lg' ∧
    (∀ row, row ∈ rows final_df →
       ∃ k, loc final_df row ID_COLUMN = text k) ∧
    (∀ lg0, build_catalog (dropna_identifier raw_df) lg0 =
            Ok (lg0 ++ lg', final_df)) ∧
    (∀ r, r ∈ rows (dropna_identifier raw_df) ↔
          r ∈ rows raw_df ∧ loc raw_df r ID_COLUMN ≠ nan).
Proof.
  intros _ _ Hload Hid.
  pose proof (load_data_some _ _ _ Hload) as [_ Hraw].
  assert (full raw_df) as Hfull by (rewrite Hraw; apply concat_full).
  exists (catalog_log raw_df), (final_frame raw_df).
  split; [by apply process_catalog_closed|].
  split; [apply catalog_log_levels|].
  split; [|split].
  - intros row Hrow. change (row ∈ final_rows raw_df) in Hrow.
    apply elem_of_final_rows in Hrow as (k & _ & ->).
    exists k. by rewrite loc_final_frame by apply id_in_canonical.
  - intros lg0. rewrite build_catalog_dropna by done.
    by apply build_catalog_closed.
  - intros r. unfold dropna_identifier. simpl rows.
    rewrite list_elem_of_filter. tauto.
Qed.

(** ** Alias resolution *)

Lemma pick_reconciled (a fl : cell) (fv : list pystr → cell) :
  [a] ++ map (fun item => fv (snd item)) MAPPING =
  map (pick a fl fv) RECONCILED.
Proof. vm_compute. reflexivity. Qed.

Lemma reconcile_closed raw_df lg :
  ID_COLUMN ∈ columns raw_df →
  reconcile raw_df lg =
  Ok (lg ++ map (field_record raw_df) MAPPING, reconciled_frame raw_df).
Proof.
  intros Hid. unfold reconcile.
  rewrite (getcol_in _ _ Hid).
  change (Ok ?a ≫= ?f) with (f a). cbv beta.
  rewrite setitem_first.
  rewrite (for_each_map_field raw_df MAPPING lg [ID_COLUMN]
             (fun r => [loc raw_df r ID_COLUMN])).
  - unfold reconciled_frame.
    rewrite (map_ext _ (fun r => map (canonical_value raw_df r) RECONCILED));
      [reflexivity|].
    intros r.
    exact (pick_reconciled (loc raw_df r ID_COLUMN) (row_filters raw_df r)
             (fun sources => field_value raw_df sources r)).
  - done.
  - apply (bool_decide_unpack _). by vm_compute.
Qed.

Lemma mapping_item_cases (P : pystr * list pystr → Prop) :
  Forall P MAPPING → ∀ item, item ∈ MAPPING → P item.
Proof. intros HP item Hin. by apply (proj1 (Forall_forall _ _) HP). Qed.

Lemma pick_mapping (a fl : cell) (fv : list pystr → cell) target sources :
  (target, sources) ∈ MAPPING → pick a fl fv target = fv sources.
Proof.
  intros Hin.
  assert (Forall (fun item => pick a fl fv (fst item) = fv (snd item)) MAPPING)
    as Hall by (unfold MAPPING; repeat constructor).
  exact (mapping_item_cases _ Hall (target, sources) Hin).
Qed.

Lemma mapping_target_reconciled target sources :
  (target, sources) ∈ MAPPING → target ∈ RECONCILED.
Proof.
  intros Hin. right. apply list_elem_of_fmap. by exists (target, sources).
Qed.

Lemma mapping_sources_truthy target sources c :
  (target, sources) ∈ MAPPING → c ∈ sources → truthy c = true.
Proof.
  intros Hin.
  assert (Forall (fun item => Forall (fun s => truthy s = true) (snd item))
            MAPPING) as Hall by (apply (bool_decide_unpack _); by vm_compute).
  pose proof (mapping_item_cases _ Hall (target, sources) Hin) as Hsrc.
  intros Hc. by apply (proj1 (Forall_forall _ _) Hsrc).
Qed.

Lemma next_match_first sources current_cols pre c post :
  sources = pre ++ c :: post →
  Forall (fun p => p ∉ current_cols) pre →
  c ∈ current_cols →
  next_match sources current_cols = Some c.
Proof.
  intros -> Hpre Hc. unfold next_match.
  induction Hpre as [|p pre Hp _ IH]; simpl.
  - by rewrite filter_cons, decide_True.
  - by rewrite filter_cons, decide_False.
Qed.

Lemma next_match_none sources current_cols :
  Forall (fun s => s ∉ current_cols) sources →
  next_match sources current_cols = None.
Proof.
  unfold next_match. induction 1 as [|s sources Hs _ IH]; [done|].
  by rewrite filter_cons, decide_False.
Qed.

Lemma reconciled_column raw_df target sources :
  (target, sources) ∈ MAPPING →
  getcol (reconciled_frame raw_df) target =
  Ok (map (field_value raw_df sources) (rows raw_df)).
Proof.
  intros Hin.
  rewrite getcol_in by (by apply (mapping_target_reconciled _ sources)).
  unfold reconciled_frame. cbn [rows]. rewrite map_map. f_equal.
  apply map_ext. intros r.
  rewrite loc_map by (by apply (mapping_target_reconciled _ sources)).
  exact (pick_mapping _ _ (fun sources => field_value raw_df sources r)
           target sources Hin).
Qed.

(** C2: for a field of the alias map, the first candidate found among the
    columns of the dataset is bound and its column is the field, row by
    row; with no candidate among the columns the field is missing in every
    row, a warning is logged and the run goes on to save the catalog.
    For sheets of texts and blanks whose stripped headers are distinct. *)
Theorem alias_resolution `{ArgSort} reads files lg raw_df target sources :
  frames_of reads = Some files →
  distinct_headers files →
  load_data files = (lg, Some raw_df) →
  ID_COLUMN ∈ columns raw_df →
  (target, sources) ∈ MAPPING →
  ∃ lg1 temp_df lg2 final_df,
    reconcile raw_df (lg ++ [(INFO, BuildingCatalog)]) = Ok (lg1, temp_df) ∧
    process_catalog files = Ok (lg2, Saved final_df) ∧
    (∀ pre c post,
       sources = pre ++ c :: post →
       Forall (fun p => p ∉ columns raw_df) pre →
       c ∈ columns raw_df →
       getcol temp_df target = getcol raw_df c ∧
       getcol raw_df c = Ok (map (fun r => loc raw_df r c) (rows raw_df)) ∧
       (INFO, Mapped target c) ∈ lg1) ∧
    (Forall (fun s => s ∉ columns raw_df) sources →
       getcol temp_df target = Ok (replicate (length (rows raw_df)) nan) ∧
       (WARNING, FieldNotFound target) ∈ lg1 ∧
       (WARNING, FieldNotFound target) ∈ lg2).
Proof.
  intros _ _ Hload Hid Hin.
  eexists _, (reconciled_frame raw_df), _, (final_frame raw_df).
  split; [by apply reconcile_closed|].
  split; [by apply process_catalog_closed|].
  assert (field_record raw_df (target, sources) ∈
          map (field_record raw_df) MAPPING) as Hrec.
  { apply list_elem_of_fmap. by exists (target, sources). }
  split.
  - intros pre c post Hsrc Hpre Hc.
    pose proof (next_match_first _ _ _ _ _ Hsrc Hpre Hc) as Hnext.
    assert (truthy c = true) as Htr.
    { apply (mapping_sources_truthy target sources); [done|].
      rewrite Hsrc. apply elem_of_app. right. left. }
    split; [|split].
    + rewrite (reconciled_column _ _ _ Hin), (getcol_in _ _ Hc). f_equal.
      apply map_ext. intros r. unfold field_value. by rewrite Hnext, Htr.
    + by apply getcol_in.
    + apply elem_of_app. right.
      unfold field_record in Hrec. simpl in Hrec.
      by rewrite Hnext, Htr in Hrec.
  - intros Hnone. pose proof (next_match_none _ _ Hnone) as Hnext.
    unfold field_record in Hrec. simpl in Hrec. rewrite Hnext in Hrec.
    split; [|split].
    + rewrite (reconciled_column _ _ _ Hin). f_equal.
      unfold field_value. rewrite Hnext.
      induction (rows raw_df) as [|r rs IH]; [done|]. simpl. by rewrite IH.
    + apply elem_of_app. by right.
    + apply elem_of_app. right. apply elem_of_app. right.
      unfold catalog_log. apply elem_of_app. by left.
Qed.

(** ** The filter extractor *)

Lemma direct_value_spec row key s :
  direct_value row key = Some s ↔
  key ∈ index row ∧ getitem row key = Ok (text s) ∧ strip (str (text s)) ≠ [].
Proof.
  unfold direct_value. split.
  - destruct (getitem row key) as [[|s']|e] eqn:E; try done.
    destruct (strip s') eqn:Es; simpl; [done|].
    intros [= ->]. split; [|by rewrite Es].
    destruct (decide (key ∈ index row)) as [|Hn]; [done|].
    by rewrite (getitem_notin _ _ Hn) in E.
  - intros (_ & -> & Hs). simpl in Hs. by destruct (strip s).
Qed.

(** C8: for a row that holds the flag columns of the universe, the direct
    filter columns that are present, not missing and not blank after
    trimming contribute their text, in the order of the fixed list and before
    the boolean-flag labels; the result is the contributions joined with
    comma and space, or missing when there is none. *)
Theorem direct_filters_and_assembly row source_columns :
  Forall (fun c => c ∈ index row) (boolean_cols source_columns) →
  ∃ direct flags,
    direct = omap (direct_value row) FILTER_KEYS ∧
    (∀ key s, direct_value row key = Some s ↔
       key ∈ index row ∧ getitem row key = Ok (text s) ∧
       strip (str (text s)) ≠ []) ∧
    flags = flag_filters row source_columns ∧
    extract_filters row source_columns =
      Ok (match direct ++ flags with
          | [] => nan
          | _ :: _ => text (join (u ", ") (direct ++ flags))
          end) ∧
    (∀ s, direct ++ flags = [s] →
       extract_filters row source_columns = Ok (text s)) ∧
    FILTER_KEYS =
      map u [ "Дополнительные фильтры тонкой очистки в комплекте";
              "Фильтра"; "Воздушный фильтр" ]%string ∧
    extract_filters [(u "Артикул", text (u "A1")); (u "Фильтра", text (u "HEPA"))]
      [u "Артикул"; u "Фильтра"] = Ok (text (u "HEPA")).
Proof.
  intros Hall.
  exists (direct_filters row), (flag_filters row source_columns).
  split; [done|]. split; [apply direct_value_spec|]. split; [done|].
  split; [by apply extract_filters_closed|].
  split; [|split; by vm_compute].
  intros s Hs. rewrite extract_filters_closed by done. by rewrite Hs.
Qed.

(** ** Labels of the boolean-flag columns *)

Lemma startswith_app p rest : startswith p (p ++ rest) = true.
Proof.
  induction p as [|c p IH]; [by destruct rest|].
  simpl. by rewrite N.eqb_refl.
Qed.

Lemma replace_from_skip old new p rest :
  replace_from old new (length p) (p ++ rest) = replace_from old new O rest.
Proof.
  induction p as [|c p IH]; simpl; [|done].
  by destruct rest.
Qed.

Lemma replace_occurrence old new rest :
  old ≠ [] → replace old new (old ++ rest) = new ++ replace old new rest.
Proof.
  intros Hne. destruct old as [|c old]; [done|].
  unfold replace.
  change ((c :: old) ++ rest) with (c :: (old ++ rest)).
  cbn [replace_from].
  change (c :: (old ++ rest)) with ((c :: old) ++ rest).
  rewrite startswith_app. f_equal.
  apply replace_from_skip.
Qed.

Lemma replace_absent old new s :
  contains old s = false → replace old new s = s.
Proof.
  unfold replace. induction s as [|c s IH]; [done|].
  intros Hc. cbn [contains] in Hc.
  apply orb_false_iff in Hc as [Hs Hc].
  cbn [replace_from]. rewrite Hs. f_equal. by apply IH.
Qed.

Lemma label_of_prefixed rest :
  contains LABEL_PREFIX rest = false → label_of (LABEL_PREFIX ++ rest) = rest.
Proof.
  intros Hc. unfold label_of.
  rewrite replace_occurrence by done.
  by rewrite replace_absent.
Qed.

Lemma elem_of_boolean_cols source_columns c :
  c ∈ boolean_cols source_columns ↔
  c ∈ source_columns ∧ contains MARKER (lower c) = true ∧ c ∉ FILTER_KEYS.
Proof.
  unfold boolean_cols. rewrite list_elem_of_filter.
  rewrite andb_true_iff, negb_true_iff, inb_false. tauto.
Qed.

(** C7, as amended: for a row that holds the columns of the universe, the
    boolean-flag columns are the columns of the universe whose lowercased
    name contains the marker and that are not direct filter columns; in the
    order of the universe, each whose value,
    trimmed and lowercased, is an affirmative contributes its name with
    every occurrence of the prefix phrase deleted, which is the name
    without the prefix when the phrase occurs at its start only; a missing
    value is not affirmative and raises nothing. *)
Theorem boolean_flag_filters row source_columns :
  Forall (fun c => c ∈ index row) (boolean_cols source_columns) →
  (∀ c, c ∈ boolean_cols source_columns ↔
        c ∈ source_columns ∧ contains MARKER (lower c) = true ∧
        c ∉ FILTER_KEYS) ∧
  (∃ chosen,
     chosen = filter (fun c => affirmative row c = true)
                (boolean_cols source_columns) ∧
     extract_filters row source_columns =
       Ok (filters_cell (direct_filters row ++
                         map (replace LABEL_PREFIX []) chosen))) ∧
  (∀ c v, getitem row c = Ok v →
     (affirmative row c = true ↔ lower (strip (str v)) ∈ YES_VALUES)) ∧
  (∀ c, getitem row c = Ok nan → affirmative row c = false) ∧
  (∀ rest, contains LABEL_PREFIX rest = false →
     replace LABEL_PREFIX [] (LABEL_PREFIX ++ rest) = rest) ∧
  MARKER = u "фильтр тонкой очистки" ∧
  LABEL_PREFIX = u "Дополнительный фильтр тонкой очистки " ∧
  YES_VALUES = map u ["да"; "+"; "yes"; "true"; "1"; "есть"]%string.
Proof.
  intros Hall.
  split; [apply elem_of_boolean_cols|].
  split; [eexists; split; [done|]; by apply extract_filters_closed|].
  split.
  { intros c v Hv. unfold affirmative. rewrite Hv. apply inb_true. }
  split.
  { intros c Hv. unfold affirmative. by rewrite Hv. }
  split; [apply label_of_prefixed|].
  by vm_compute.
Qed.

(** ** Filters and the columns of the source sheets *)

Lemma index_series_subseteq df r c : c ∈ index (series df r) → c ∈ columns df.
Proof.
  unfold index, series. intros Hin.
  apply list_elem_of_fmap in Hin as ([k v] & -> & Hin).
  by apply elem_of_zip_l in Hin.
Qed.

Lemma reindex_absent df r labels c :
  c ∉ columns df →
  getitem (zip labels (reindex (series df r) labels)) c =
  if inb c labels then Ok nan else Raise (KeyError c).
Proof.
  intros Hn. unfold reindex.
  destruct (inb c labels) eqn:E.
  - apply inb_true in E. rewrite getitem_zip_map by done.
    rewrite getitem_notin; [done|].
    intros Hin. by apply Hn, (index_series_subseteq df r).
  - apply inb_false in E. apply getitem_notin.
    by rewrite index_zip_map.
Qed.

Lemma affirmative_absent df r labels c :
  c ∉ columns df →
  affirmative (zip labels (reindex (series df r) labels)) c = false.
Proof.
  intros Hn. unfold affirmative. rewrite (reindex_absent df r labels c Hn).
  by destruct (inb c labels).
Qed.

Lemma boolean_cols_filter (P : pystr → Prop) `{!∀ c, Decision (P c)}
    source_columns :
  boolean_cols (filter P source_columns) = filter P (boolean_cols source_columns).
Proof.
  unfold boolean_cols. rewrite !list_filter_filter.
  apply list_filter_iff. intros c. tauto.
Qed.

Lemma flag_filters_origin df r labels :
  flag_filters (zip labels (reindex (series df r) labels))
    (filter (fun c => c ∈ columns df) labels) =
  flag_filters (zip labels (reindex (series df r) labels)) labels.
Proof.
  unfold flag_filters. f_equal.
  rewrite boolean_cols_filter, list_filter_filter.
  apply list_filter_iff. intros c. split; [by intros [? _]|].
  intros Ha. split; [done|].
  destruct (decide (c ∈ columns df)) as [|Hn]; [done|].
  by rewrite (affirmative_absent df r labels c Hn) in Ha.
Qed.

(** C4, as amended: the filters of every row are computed with the column
    union of all loaded sheets, in the order of the union; a column that
    the row's own sheet never had is scanned, holds the missing value
    there, and contributes nothing, so the value is the one the columns of
    the union that the sheet has would give.
    For sheets of texts and blanks whose stripped headers are distinct. *)
Theorem filters_use_column_union reads files lg raw_df :
  frames_of reads = Some files →
  distinct_headers files →
  load_data files = (lg, Some raw_df) →
  columns raw_df = unique (flat_map columns (loaded_frames files)) ∧
  rows raw_df =
    flat_map
      (fun df => map (fun r => reindex (series df r) (columns raw_df)) (rows df))
      (loaded_frames files) ∧
  apply_extract_filters raw_df =
    mapM (fun row => extract_filters (series raw_df row) (columns raw_df))
      (rows raw_df) ∧
  apply_extract_filters raw_df = Ok (map (row_filters raw_df) (rows raw_df)) ∧
  ∀ df r, df ∈ loaded_frames files → r ∈ rows df →
    ∃ row, row = reindex (series df r) (columns raw_df) ∧
      row ∈ rows raw_df ∧
      (∀ c, c ∈ columns raw_df → c ∉ columns df →
         getitem (series raw_df row) c = Ok nan ∧
         affirmative (series raw_df row) c = false) ∧
      extract_filters (series raw_df row) (columns raw_df) =
        extract_filters (series raw_df row)
          (filter (fun c => c ∈ columns df) (columns raw_df)).
Proof.
  intros _ _ Hload. apply load_data_some in Hload as [_ ->].
  set (dfs := loaded_frames files). set (raw_df := concat dfs).
  split; [done|]. split; [done|]. split; [done|].
  split; [apply apply_extract_filters_closed, concat_full|].
  intros df r Hdf Hr. eexists. split; [done|].
  split.
  { unfold raw_df at 2. rewrite rows_concat.
    apply list_elem_of_In, in_flat_map. exists df.
    split; [by apply list_elem_of_In|].
    apply (in_map (fun r => reindex (series df r) (columns (concat dfs)))).
    by apply list_elem_of_In. }
  split.
  { intros c Hc Hn. unfold series at 1 3.
    rewrite (affirmative_absent df r _ c Hn).
    rewrite (reindex_absent df r _ c Hn).
    by apply inb_true in Hc as ->. }
  assert (index (series raw_df (reindex (series df r) (columns raw_df)))
          = columns raw_df) as Hidx.
  { apply index_series. unfold reindex. by rewrite length_map. }
  rewrite !extract_filters_closed.
  - pose proof (flag_filters_origin df r (columns raw_df)) as Hff.
    change (zip (columns raw_df) ?x) with (series raw_df x) in Hff.
    by rewrite Hff.
  - rewrite Hidx. rewrite boolean_cols_filter.
    apply Forall_forall. intros c Hc.
    apply list_elem_of_filter in Hc as [_ Hc].
    by apply elem_of_boolean_cols in Hc as [? _].
  - rewrite Hidx. apply boolean_cols_subseteq.
Qed.

(** ** The sorted frame *)

Lemma str_ltb_false_trans a : ∀ b c,
  str_ltb b a = false → str_ltb c b = false → str_ltb c a = false.
Proof.
  induction a as [|x a IH]; intros [|y b] [|z c]; simpl; try done.
  intros H1 H2.
  apply orb_false_iff in H1 as [H1 H1'], H2 as [H2 H2'].
  apply N.ltb_ge in H1, H2.
  apply orb_false_iff. split; [apply N.ltb_ge; lia|].
  destruct (N.eqb_spec z x) as [->|]; [|done]. simpl.
  assert (y = x) as -> by lia.
  rewrite N.eqb_refl in H1', H2'. simpl in *. by apply (IH b c).
Qed.

#[global] Instance str_le_trans : Transitive str_le.
Proof.
  intros a b c. unfold str_le, str_leb. rewrite !negb_true_iff.
  intros H1 H2. by apply (str_ltb_false_trans a b c).
Qed.

Lemma elem_of_take_at {A : Type} (indexer : list nat) (l : list A) x :
  x ∈ take_at indexer l → x ∈ l.
Proof.
  unfold take_at. intros (i & _ & Hx)%list_elem_of_omap.
  by apply list_elem_of_lookup_2 in Hx.
Qed.

Lemma map_filter_notna {A : Type} (f : A → cell) (l : list A) :
  map f (filter (fun x => notna (f x) = true) l) =
  map text (omap text_of (map f l)).
Proof.
  induction l as [|x l IH]; [done|].
  rewrite filter_cons. cbn [map omap list_omap].
  destruct (f x) as [|s] eqn:E; cbn [text_of notna].
  - rewrite decide_False by done. exact IH.
  - rewrite decide_True by done. cbn [map]. rewrite E. f_equal. exact IH.
Qed.

Lemma map_filter_isna {A : Type} (f : A → cell) (l : list A) :
  map f (filter (fun x => notna (f x) = false) l) =
  replicate (length (filter (fun x => notna (f x) = false) l)) nan.
Proof.
  induction l as [|x l IH]; [done|].
  rewrite filter_cons.
  destruct (f x) as [|s] eqn:E; cbn [notna].
  - rewrite decide_True by done. cbn [map length replicate].
    rewrite E. f_equal. exact IH.
  - rewrite decide_False by done. exact IH.
Qed.

(** Among the rows the indexer of [nargsort] gives, those without key are
    the ones of the list, in their order. *)
Lemma filter_missing_nargsort {A : Type} (f : A → cell) (l : list A) indexer :
  filter (fun x => f x = nan)
    (take_at indexer (filter (fun x => notna (f x) = true) l) ++
     filter (fun x => notna (f x) = false) l) =
  filter (fun x => f x = nan) l.
Proof.
  rewrite filter_app, filter_none, app_nil_l.
  - rewrite list_filter_filter. apply list_filter_iff.
    intros x. destruct (f x); simpl; split; try done; by intros [].
  - apply Forall_forall. intros x Hx%elem_of_take_at.
    apply list_elem_of_filter in Hx as [Hx _].
    intros E. by rewrite E in Hx.
Qed.

(** The manufacturer column of the saved frame: the manufacturers that are
    there, as the sorting routine arranges them, then the missing ones. *)
Lemma final_sort_keys `{ArgSort} raw_df :
  map (fun row => loc (final_frame raw_df) row MANUFACTURER)
    (final_rows raw_df) =
  map text (take_at (argsort (omap text_of (sort_keys raw_df)))
              (omap text_of (sort_keys raw_df))) ++
  replicate
    (length
       (filter (fun k => notna (merged_value raw_df k MANUFACTURER) = false)
          (merged_keys raw_df))) nan.
Proof.
  rewrite final_rows_closed, map_map.
  rewrite (map_ext _ (fun k => merged_value raw_df k MANUFACTURER))
    by (intros k; apply loc_final_frame, manufacturer_in_canonical).
  rewrite map_app. f_equal.
  - rewrite <- take_at_map, map_filter_notna, take_at_map. reflexivity.
  - apply map_filter_isna.
Qed.

(** The rows without manufacturer of the saved frame are those of the
    merged frame, in the same order. *)
Lemma final_rows_missing `{ArgSort} raw_df :
  filter (fun row => loc (final_frame raw_df) row MANUFACTURER = nan)
    (final_rows raw_df) =
  filter (fun row => loc (final_frame raw_df) row MANUFACTURER = nan)
    (merged_rows raw_df).
Proof.
  rewrite final_rows_closed. unfold merged_rows. rewrite !filter_map.
  f_equal.
  rewrite !(list_filter_iff
              (fun k => loc (final_frame raw_df)
                          (map (merged_value raw_df k) CANONICAL)
                          MANUFACTURER = nan)
              (fun k => merged_value raw_df k MANUFACTURER = nan))
    by (intros k; by rewrite loc_final_frame
                    by apply manufacturer_in_canonical).
  apply filter_missing_nargsort.
Qed.

(** C5, as amended: the saved rows are the merged rows, rearranged so that
    the manufacturers ascend and the rows without manufacturer come last;
    the rows without manufacturer keep the order they had after the merge,
    the order among rows of equal manufacturer is the sorting routine's.
    For sheets of texts and blanks whose stripped headers are distinct. *)
Theorem sorted_by_manufacturer `{ArgSort} reads files lg raw_df :
  frames_of reads = Some files →
  distinct_headers files →
  load_data files = (lg, Some raw_df) →
  ID_COLUMN ∈ columns raw_df →
  ∃ lg1 temp_df merged_df lg2 final_df present missing,
    canonical_frame raw_df (lg ++ [(INFO, BuildingCatalog)])
      = Ok (lg1, temp_df) ∧
    merge_duplicates temp_df = Ok merged_df ∧
    process_catalog files = Ok (lg2, Saved final_df) ∧
    columns final_df = columns merged_df ∧
    rows final_df ≡ₚ rows merged_df ∧
    getcol final_df MANUFACTURER
      = Ok (map text present ++ replicate missing nan) ∧
    StronglySorted str_le present ∧
    filter (fun row => loc final_df row MANUFACTURER = nan) (rows final_df) =
    filter (fun row => loc merged_df row MANUFACTURER = nan) (rows merged_df).
Proof.
  intros _ _ Hload Hid.
  pose proof (load_data_some _ _ _ Hload) as [_ Hraw].
  assert (full raw_df) as Hfull by (rewrite Hraw; apply concat_full).
  eexists _, (temp_frame raw_df), (mkDataFrame CANONICAL (merged_rows raw_df)),
    _, (final_frame raw_df), _, _.
  split; [by apply canonical_frame_closed|].
  split; [apply merge_duplicates_closed|].
  split; [by apply process_catalog_closed|].
  split; [done|].
  split; [apply final_rows_perm|].
  split.
  { rewrite getcol_in by apply manufacturer_in_canonical.
    change (rows (final_frame raw_df)) with (final_rows raw_df).
    by rewrite final_sort_keys. }
  split.
  { apply (Sorted_StronglySorted str_le), argsort_sorted. }
  apply final_rows_missing.
Qed.

(** * Examples *)

Example example_load :
  load_data example_files = (example_log, Some example_raw).
Proof. by vm_compute. Qed.

(** The catalog of the example: the price of [X1] is the first one that is
    not missing, (missing, 100, 200) gives 100; the brand column wins over
    the manufacturer column for the whole dataset; the row without
    identifier is gone. *)
Example example_catalog :
  ∃ lg, process_catalog example_files =
  Ok (lg, Saved (mkDataFrame (map u CANONICAL_NAMES)
    [ [txt "X2"; txt "Acme"; txt "100"; nan; nan; nan; nan; nan; nan; nan;
       nan; nan; nan; nan];
      [txt "X1"; txt "Zeta"; txt "100"; nan; nan; nan; nan; nan; nan; nan;
       nan; nan; nan; txt "HEPA, угольный"];
      [txt "X3"; nan; txt "300"; nan; nan; nan; nan; nan; nan; nan;
       nan; nan; nan; nan] ])).
Proof. eexists. vm_compute. reflexivity. Qed.

(** The quicksort on forty keys in descending order and on a hundred keys
    without order: ranges are partitioned, and the indexer orders the
    keys. *)
Example quicksort_orders_descending :
  let keys := map (fun i => [N.of_nat (40 - i)]) (seq 0 40) in
  orders keys (aquicksort keys 40) = true.
Proof. by vm_compute. Qed.

Example quicksort_orders_scattered :
  let keys := map (fun i => [N.of_nat ((i * 37 + 11) mod 101)]) (seq 0 100) in
  orders keys (aquicksort keys 100) = true.
Proof. by vm_compute. Qed.

(** A sheet that holds numbers has no frame; the padded sheet has two
    headers that strip to the same label. *)
Example numeric_sheet_has_no_frame : frames_of [Some numeric_sheet] = None.
Proof. by vm_compute. Qed.

Example padded_sheet_headers_collide : ¬ distinct_headers [Some padded_sheet].
Proof. apply (bool_decide_unpack _). by vm_compute. Qed.

Example first_valid_missing_then_value :
  first_valid [nan; txt "100"] = txt "100".
Proof. by vm_compute. Qed.

Example first_valid_first_wins :
  first_valid [txt "100"; txt "200"] = txt "100".
Proof. by vm_compute. Qed.

Example boolean_flag_yes :
  extract_filters
    [(u "Дополнительный фильтр тонкой очистки угольный", txt "да")]
    [u "Дополнительный фильтр тонкой очистки угольный"] = Ok (txt "угольный").
Proof. by vm_compute. Qed.

Example boolean_flag_no :
  extract_filters
    [(u "Дополнительный фильтр тонкой очистки угольный", txt "нет")]
    [u "Дополнительный фильтр тонкой очистки угольный"] = Ok nan.
Proof. by vm_compute. Qed.

Example boolean_flag_missing :
  extract_filters
    [(u "Дополнительный фильтр тонкой очистки угольный", nan)]
    [u "Дополнительный фильтр тонкой очистки угольный"] = Ok nan.
Proof. by vm_compute. Qed.

(** * Where the code differs from the spec's words *)

(** ** C3: the missing identifier is logged, not raised *)

(** C3, counterexample: a sheet with a brand and a price and no identifier
    column.  The run does not fail with an exception: it logs the error
    and returns. *)
Lemma schema_error_counterexample :
  load_data [Some no_identifier_sheet]
    = ([(INFO, FilesFound 1); (INFO, Loaded 0 1)], Some no_identifier_sheet) ∧
  (ID_COLUMN ∉ columns no_identifier_sheet) ∧
  process_catalog [Some no_identifier_sheet] =
    Ok ([(INFO, FilesFound 1); (INFO, Loaded 0 1); (INFO, BuildingCatalog);
         (ERROR, IdentifierNotFound)], NoIdentifier) ∧
  ¬ fails (process_catalog [Some no_identifier_sheet]).
Proof.
  split; [by vm_compute|].
  split; [apply (bool_decide_unpack _); by vm_compute|].
  split; [by vm_compute|].
  intros [e He]. vm_compute in He. discriminate.
Qed.

(** ** C7: the label is made with [str.replace], not by cutting a prefix *)

(** C7, counterexample: in a flag column whose name holds the phrase after
    other text the phrase is deleted all the same, while cutting the prefix
    would leave the name as it is. *)
Lemma boolean_flag_label_counterexample :
  infix_column ∈ boolean_cols (index infix_row) ∧
  extract_filters infix_row (index infix_row) = Ok (txt "Опция: угольный") ∧
  filters_cell (direct_filters infix_row ++
                spec_flag_filters infix_row (index infix_row)) =
    txt "Опция: Дополнительный фильтр тонкой очистки угольный" ∧
  extract_filters infix_row (index infix_row) ≠
    Ok (filters_cell (direct_filters infix_row ++
                      spec_flag_filters infix_row (index infix_row))).
Proof.
  split; [apply (bool_decide_unpack _); by vm_compute|].
  split; [by vm_compute|]. split; [by vm_compute|].
  vm_compute. discriminate.
Qed.

(** ** C4: the extractor is given the column union *)

(** C4, counterexample: the row of the second sheet gets its labels in the
    order of the column union, which is the order of the first sheet; with
    the columns of its own sheet the labels would come the other way
    round. *)
Lemma filters_by_origin_counterexample :
  apply_extract_filters (concat (loaded_frames origin_files)) =
    Ok [txt "угольный"; txt "угольный, фотокаталитический"] ∧
  filters_by_origin (loaded_frames origin_files) =
    Ok [txt "угольный"; txt "фотокаталитический, угольный"] ∧
  apply_extract_filters (concat (loaded_frames origin_files)) ≠
    filters_by_origin (loaded_frames origin_files).
Proof.
  split; [by vm_compute|]. split; [by vm_compute|].
  vm_compute. discriminate.
Qed.

(** ** C5: equal manufacturers under the default sort *)

(** C5, counterexample: eighteen products of one manufacturer, merged in
    the order [P01 .. P18].  The quicksort partitions the eighteen equal
    keys around the ninth: it exchanges the second key with the sixteenth,
    the third with the fifteenth and so on up to the eighth with the tenth,
    and the insertion sort of the two parts moves nothing.  The catalog is
    saved in the order P01, P16, P15, ..., P03, P02, P17, P18. *)
Lemma sort_stability_counterexample :
  ∃ lg final_df,
    load_data [Some ties_sheet] = ([(INFO, FilesFound 1); (INFO, Loaded 0 18)],
                                   Some ties_raw) ∧
    process_catalog [Some ties_sheet] = Ok (lg, Saved final_df) ∧
    merge_duplicates (temp_frame ties_raw)
      = Ok (mkDataFrame CANONICAL (merged_rows ties_raw)) ∧
    argsort (replicate 18 (u "Acme")) =
      aquicksort (replicate 18 (u "Acme")) 18 ∧
    map (fun row => loc final_df row MANUFACTURER) (merged_rows ties_raw)
      = replicate 18 (txt "Acme") ∧
    map (fun row => loc final_df row ID_COLUMN) (merged_rows ties_raw)
      = map txt [ "P01"; "P02"; "P03"; "P04"; "P05"; "P06"; "P07"; "P08";
                  "P09"; "P10"; "P11"; "P12"; "P13"; "P14"; "P15"; "P16";
                  "P17"; "P18" ]%string ∧
    map (fun row => loc final_df row ID_COLUMN) (rows final_df)
      = map txt [ "P01"; "P16"; "P15"; "P14"; "P13"; "P12"; "P11"; "P10";
                  "P09"; "P08"; "P07"; "P06"; "P05"; "P04"; "P03"; "P02";
                  "P17"; "P18" ]%string ∧
    ¬ stable_by (fun row => loc final_df row MANUFACTURER)
        (merged_rows ties_raw) (rows final_df).
Proof.
  eexists _, (final_frame ties_raw).
  split; [by vm_compute|].
  split.
  { apply (process_catalog_closed _
             [(INFO, FilesFound 1); (INFO, Loaded 0 18)] ties_raw).
    - by vm_compute.
    - apply (bool_decide_unpack _). by vm_compute. }
  split; [apply merge_duplicates_closed|].
  split; [by vm_compute|]. split; [by vm_compute|].
  split; [by vm_compute|]. split; [by vm_compute|].
  intros Hst. specialize (Hst (txt "Acme")).
  apply (f_equal (fun l => map (fun row => head row) (take 2 l))) in Hst.
  vm_compute in Hst. discriminate.
Qed.

(** * The theorems at concrete inputs *)

(** The example files are sheets of texts and blanks, with headers that
    stay distinct when stripped. *)
Lemma example_reads : frames_of (reads_of example_files) = Some example_files.
Proof. by vm_compute. Defined.

Lemma example_distinct_headers : distinct_headers example_files.
Proof. apply (bool_decide_unpack _). by vm_compute. Defined.

(** The identifier column is among the columns of the example dataset. *)
Lemma example_has_identifier : ID_COLUMN ∈ columns example_raw.
Proof. apply (bool_decide_unpack _). by vm_compute. Defined.

(** The merge of the example files: every saved row has its identifier. *)
Lemma merge_first_non_missing_witness :
  frames_of (reads_of example_files) = Some example_files ∧
  distinct_headers example_files ∧
  load_data example_files = (example_log, Some example_raw) ∧
  ID_COLUMN ∈ columns example_raw ∧
  ∃ lg final_df,
    process_catalog example_files = Ok (lg, Saved final_df) ∧
    ∀ row, row ∈ rows final_df → ∃ k, loc final_df row ID_COLUMN = text k.
Proof.
  assert (load_data example_files = (example_log, Some example_raw)) as Hl
    by (by vm_compute).
  split; [exact example_reads|]. split; [exact example_distinct_headers|].
  split; [exact Hl|]. split; [exact example_has_identifier|].
  destruct (merge_first_non_missing _ example_files example_log example_raw
              example_reads example_distinct_headers Hl example_has_identifier)
    as (lg1 & temp_df & lg2 & final_df & _ & Hrun & _ & _ & _ & Hrows).
  exists lg2, final_df. split; [exact Hrun|].
  intros row Hrow. destruct (Hrows row Hrow) as (k & Hk & _). by exists k.
Defined.

(** The price of the example files: the retail price column is the first
    candidate among the columns and becomes the field. *)
Lemma alias_resolution_witness :
  frames_of (reads_of example_files) = Some example_files ∧
  distinct_headers example_files ∧
  load_data example_files = (example_log, Some example_raw) ∧
  ID_COLUMN ∈ columns example_raw ∧
  (u "Цена", price_sources) ∈ MAPPING ∧
  ∃ lg1 temp_df,
    reconcile example_raw (example_log ++ [(INFO, BuildingCatalog)])
      = Ok (lg1, temp_df) ∧
    getcol temp_df (u "Цена") = getcol example_raw (u "Розничная цена") ∧
    (INFO, Mapped (u "Цена") (u "Розничная цена")) ∈ lg1.
Proof.
  assert (load_data example_files = (example_log, Some example_raw)) as Hl
    by (by vm_compute).
  assert ((u "Цена", price_sources) ∈ MAPPING) as Hm
    by (apply (bool_decide_unpack _); by vm_compute).
  split; [exact example_reads|]. split; [exact example_distinct_headers|].
  split; [exact Hl|]. split; [exact example_has_identifier|].
  split; [exact Hm|].
  destruct (alias_resolution _ example_files example_log example_raw
              (u "Цена") price_sources example_reads example_distinct_headers Hl example_has_identifier Hm)
    as (lg1 & temp_df & lg2 & final_df & Hrec & _ & Hfirst & _).
  exists lg1, temp_df. split; [exact Hrec|].
  destruct (Hfirst [u "Цена"] (u "Розничная цена")
              (map u ["Цена со скидкой"; "Стоимость"; "Price"; "РРЦ"]%string))
    as (Hcol & _ & Hlog).
  - by vm_compute.
  - apply (bool_decide_unpack _). by vm_compute.
  - apply (bool_decide_unpack _). by vm_compute.
  - split; [exact Hcol|exact Hlog].
Defined.

(** A sheet without identifier column: the run ends with the error record. *)
Lemma identifier_required_witness :
  frames_of (reads_of [Some no_identifier_sheet])
    = Some [Some no_identifier_sheet] ∧
  distinct_headers [Some no_identifier_sheet] ∧
  load_data [Some no_identifier_sheet]
    = ([(INFO, FilesFound 1); (INFO, Loaded 0 1)], Some no_identifier_sheet) ∧
  (ID_COLUMN ∉ columns no_identifier_sheet) ∧
  process_catalog [Some no_identifier_sheet] =
    Ok ([(INFO, FilesFound 1); (INFO, Loaded 0 1); (INFO, BuildingCatalog);
         (ERROR, IdentifierNotFound)], NoIdentifier).
Proof.
  assert (load_data [Some no_identifier_sheet]
          = ([(INFO, FilesFound 1); (INFO, Loaded 0 1)],
             Some no_identifier_sheet)) as Hl by (by vm_compute).
  assert (ID_COLUMN ∉ columns no_identifier_sheet) as Hn
    by (apply (bool_decide_unpack _); by vm_compute).
  assert (frames_of (reads_of [Some no_identifier_sheet])
          = Some [Some no_identifier_sheet]) as Hr by (by vm_compute).
  assert (distinct_headers [Some no_identifier_sheet]) as Hd
    by (apply (bool_decide_unpack _); by vm_compute).
  split; [exact Hr|]. split; [exact Hd|].
  split; [exact Hl|]. split; [exact Hn|].
  exact (identifier_required _ [Some no_identifier_sheet] _ _ Hr Hd Hl Hn).
Defined.

(** The filters of the example files, computed with the column union. *)
Lemma filters_use_column_union_witness :
  frames_of (reads_of example_files) = Some example_files ∧
  distinct_headers example_files ∧
  load_data example_files = (example_log, Some example_raw) ∧
  apply_extract_filters example_raw =
    Ok (map (row_filters example_raw) (rows example_raw)).
Proof.
  assert (load_data example_files = (example_log, Some example_raw)) as Hl
    by (by vm_compute).
  split; [exact example_reads|]. split; [exact example_distinct_headers|].
  split; [exact Hl|].
  destruct (filters_use_column_union _ example_files example_log example_raw example_reads example_distinct_headers Hl)
    as (_ & _ & _ & Hall & _).
  exact Hall.
Defined.

(** The example catalog is a rearrangement of its merged rows, the
    manufacturers ascending and the missing ones last. *)
Lemma sorted_by_manufacturer_witness :
  frames_of (reads_of example_files) = Some example_files ∧
  distinct_headers example_files ∧
  load_data example_files = (example_log, Some example_raw) ∧
  ID_COLUMN ∈ columns example_raw ∧
  ∃ lg final_df merged_df present missing,
    process_catalog example_files = Ok (lg, Saved final_df) ∧
    rows final_df ≡ₚ rows merged_df ∧
    getcol final_df MANUFACTURER
      = Ok (map text present ++ replicate missing nan) ∧
    StronglySorted str_le present.
Proof.
  assert (load_data example_files = (example_log, Some example_raw)) as Hl
    by (by vm_compute).
  split; [exact example_reads|]. split; [exact example_distinct_headers|].
  split; [exact Hl|]. split; [exact example_has_identifier|].
  destruct (sorted_by_manufacturer _ example_files example_log example_raw
              example_reads example_distinct_headers Hl example_has_identifier)
    as (lg1 & temp_df & merged_df & lg2 & final_df & present & missing &
        _ & _ & Hrun & _ & Hperm & Hkeys & Hsorted & _).
  exists lg2, final_df, merged_df, present, missing.
  split; [exact Hrun|]. split; [exact Hperm|]. split; [exact Hkeys|].
  exact Hsorted.
Defined.

(** The example files hold three distinct identifiers and give three rows. *)
Lemma distinct_identifier_count_witness :
  frames_of (reads_of example_files) = Some example_files ∧
  distinct_headers example_files ∧
  load_data example_files = (example_log, Some example_raw) ∧
  ID_COLUMN ∈ columns example_raw ∧
  ∃ lg final_df,
    process_catalog example_files = Ok (lg, Saved final_df) ∧
    length (rows final_df) = 3%nat.
Proof.
  assert (load_data example_files = (example_log, Some example_raw)) as Hl
    by (by vm_compute).
  split; [exact example_reads|]. split; [exact example_distinct_headers|].
  split; [exact Hl|]. split; [exact example_has_identifier|].
  destruct (distinct_identifier_count _ example_files example_log example_raw
              example_reads example_distinct_headers Hl example_has_identifier)
    as (lg' & final_df & Hrun & Hlen & _).
  exists lg', final_df. split; [exact Hrun|].
  rewrite Hlen. by vm_compute.
Defined.

(** A row with an affirmative flag, a missing flag and a flag column whose
    name lacks the prefix. *)
Lemma boolean_flag_filters_witness :
  Forall (fun c => c ∈ index flags_row) (boolean_cols (index flags_row)) ∧
  extract_filters flags_row (index flags_row) =
    Ok (txt "HEPA, угольный, ФИЛЬТР ТОНКОЙ ОЧИСТКИ (катехиновый)").
Proof.
  assert (Forall (fun c => c ∈ index flags_row)
            (boolean_cols (index flags_row))) as Hall
    by (apply (bool_decide_unpack _); by vm_compute).
  split; [exact Hall|].
  destruct (boolean_flag_filters flags_row (index flags_row) Hall)
    as (_ & (chosen & -> & Hres) & _).
  rewrite Hres. by vm_compute.
Defined.

(** A row with two direct filter texts, a blank one and a flag. *)
Lemma direct_filters_and_assembly_witness :
  Forall (fun c => c ∈ index direct_row) (boolean_cols (index direct_row)) ∧
  extract_filters direct_row (index direct_row) =
    Ok (txt "HEPA,  сетчатый , угольный").
Proof.
  assert (Forall (fun c => c ∈ index direct_row)
            (boolean_cols (index direct_row))) as Hall
    by (apply (bool_decide_unpack _); by vm_compute).
  split; [exact Hall|].
  destruct (direct_filters_and_assembly direct_row (index direct_row) Hall)
    as (direct & flags & -> & _ & -> & Hres & _).
  rewrite Hres. by vm_compute.
Defined.

(** The example catalog has the canonical columns. *)
Lemma canonical_schema_witness :
  frames_of (reads_of example_files) = Some example_files ∧
  distinct_headers example_files ∧
  load_data example_files = (example_log, Some example_raw) ∧
  ID_COLUMN ∈ columns example_raw ∧
  ∃ lg final_df,
    process_catalog example_files = Ok (lg, Saved final_df) ∧
    columns final_df = map u CANONICAL_NAMES.
Proof.
  assert (load_data example_files = (example_log, Some example_raw)) as Hl
    by (by vm_compute).
  split; [exact example_reads|]. split; [exact example_distinct_headers|].
  split; [exact Hl|]. split; [exact example_has_identifier|].
  destruct (canonical_schema _ example_files example_log example_raw
              example_reads example_distinct_headers Hl example_has_identifier)
    as (lg' & final_df & Hrun & Hcols & _).
  exists lg', final_df. split; [exact Hrun|exact Hcols].
Defined.

(** The example files hold a row without identifier; the catalog is the one
    of the dataset without it. *)
Lemma missing_identifier_rows_dropped_witness :
  frames_of (reads_of example_files) = Some example_files ∧
  distinct_headers example_files ∧
  load_data example_files = (example_log, Some example_raw) ∧
  ID_COLUMN ∈ columns example_raw ∧
  ∃ lg final_df,
    process_catalog example_files =
      Ok (example_log ++ (INFO, BuildingCatalog) :: lg, Saved final_df) ∧
    build_catalog (dropna_identifier example_raw) [] = Ok (lg, final_df) ∧
    ∀ row, row ∈ rows final_df → ∃ k, loc final_df row ID_COLUMN = text k.
Proof.
  assert (load_data example_files = (example_log, Some example_raw)) as Hl
    by (by vm_compute).
  split; [exact example_reads|]. split; [exact example_distinct_headers|].
  split; [exact Hl|]. split; [exact example_has_identifier|].
  destruct (missing_identifier_rows_dropped _ example_files example_log
              example_raw example_reads example_distinct_headers Hl example_has_identifier)
    as (lg' & final_df & Hrun & _ & Hids & Hdrop & _).
  exists lg', final_df.
  split; [exact Hrun|]. split; [exact (Hdrop [])|exact Hids].
Defined.

(** * Further properties of the code *)

(** ** [load_data] *)

Lemma load_files_log files : ∀ n lg acc,
  fst (load_files files n lg acc) =
  lg ++ imap (fun i file => file_record (n + i) file) files.
Proof.
  induction files as [|file files IH]; intros n lg acc.
  - simpl. by rewrite app_nil_r.
  - rewrite imap_cons.
    rewrite (imap_ext _ (fun i file => file_record (S n + i) file))
      by (intros i x _; simpl; f_equal; lia).
    destruct file as [df|]; simpl; rewrite IH, <- app_assoc; simpl;
      by rewrite Nat.add_0_r.
Qed.

Lemma load_data_frame files :
  snd (load_data files) =
  match loaded_frames files with
  | [] => None
  | _ :: _ => Some (concat (loaded_frames files))
  end.
Proof.
  unfold load_data. destruct files as [|f files]; [done|].
  pose proof (load_files_frames (f :: files) 0
                [(INFO, FilesFound (length (f :: files)))] []) as Hfr.
  destruct (load_files _ _ _ _) as [lg' dfs]. simpl in Hfr. subst dfs.
  simpl snd. by destruct (loaded_frames (f :: files)).
Qed.

(** X1: when files were found, [load_data] logs their number and then one
    record per file in order, the row count of a file that was read or the
    error of one that was not, goes on after a failure, and returns the
    concatenation of the frames that were read, or [None] when none was.
    For sheets of texts and blanks whose stripped headers are distinct. *)
Theorem load_data_report reads files :
  frames_of reads = Some files →
  distinct_headers files →
  files ≠ [] →
  load_data files =
  ((INFO, FilesFound (length files)) :: imap file_record files,
   match loaded_frames files with
   | [] => None
   | _ :: _ => Some (concat (loaded_frames files))
   end).
Proof.
  intros _ _ Hne.
  rewrite (surjective_pairing (load_data files)), load_data_frame. f_equal.
  unfold load_data. destruct files as [|f files]; [done|].
  pose proof (load_files_log (f :: files) 0
                [(INFO, FilesFound (length (f :: files)))] []) as Hlog.
  by destruct (load_files _ _ _ _) as [lg' dfs].
Qed.

(** A failed file between two sheets: three records after the count, and
    the two sheets concatenated. *)
Lemma load_data_report_witness :
  frames_of (reads_of example_files) = Some example_files ∧
  distinct_headers example_files ∧
  example_files ≠ [] ∧
  load_data example_files =
  ((INFO, FilesFound 3) ::
   [(INFO, Loaded 0 3); (ERROR, ErrorLoading 1); (INFO, Loaded 2 3)],
   Some example_raw).
Proof.
  assert (example_files ≠ []) as Hne by discriminate.
  split; [exact example_reads|]. split; [exact example_distinct_headers|].
  split; [exact Hne|].
  rewrite (load_data_report _ example_files example_reads
             example_distinct_headers Hne).
  by vm_compute.
Defined.

Lemma load_data_loaded files :
  load_data files =
  (fst (load_data files),
   match loaded_frames files with
   | [] => None
   | _ :: _ => Some (concat (loaded_frames files))
   end).
Proof.
  by rewrite (surjective_pairing (load_data files)), load_data_frame.
Qed.

Lemma outcome_closed `{ArgSort} files :
  outcome_of (process_catalog files) =
  match loaded_frames files with
  | [] => Ok NoData
  | _ :: _ =>
    if inb ID_COLUMN (columns (concat (loaded_frames files)))
    then Ok (Saved (final_frame (concat (loaded_frames files))))
    else Ok NoIdentifier
  end.
Proof.
  pose proof (load_data_loaded files) as Hload.
  destruct (loaded_frames files) as [|df dfs] eqn:Ef.
  - unfold process_catalog. by rewrite Hload.
  - rewrite <- Ef in *.
    destruct (inb ID_COLUMN (columns (concat (loaded_frames files)))) eqn:Eid.
    + apply inb_true in Eid.
      by rewrite (process_catalog_closed files _ _ Hload Eid).
    + unfold process_catalog. rewrite Hload. by rewrite Eid.
Qed.

(** ** How a run ends *)

(** X2: on sheets of texts and blanks whose stripped headers are distinct
    a run raises nothing; it ends without data exactly when no file was
    read, with the missing-identifier error exactly when files were read
    and none has the identifier column, and with a saved catalog
    otherwise. *)
Theorem process_catalog_outcome `{ArgSort} reads files :
  frames_of reads = Some files →
  distinct_headers files →
  ∃ lg o,
    process_catalog files = Ok (lg, o) ∧
    match o with
    | NoData => loaded_frames files = []
    | NoIdentifier =>
      loaded_frames files ≠ [] ∧
      ID_COLUMN ∉ columns (concat (loaded_frames files))
    | Saved final_df =>
      loaded_frames files ≠ [] ∧
      ID_COLUMN ∈ columns (concat (loaded_frames files)) ∧
      columns final_df = ID_COLUMN :: map fst MAPPING ++ [FILTERS_FIELD]
    end.
Proof.
  intros _ _.
  pose proof (outcome_closed files) as Hout.
  destruct (process_catalog files) as [[lg o]|e] eqn:Erun; simpl in Hout.
  - exists lg, o. split; [done|].
    destruct (loaded_frames files) as [|df dfs] eqn:Ef.
    + by injection Hout as ->.
    + rewrite <- Ef in *.
      destruct (inb ID_COLUMN _) eqn:Eid; injection Hout as ->.
      * apply inb_true in Eid. split; [by rewrite Ef|]. by split.
      * apply inb_false in Eid. split; [by rewrite Ef|done].
  - destruct (loaded_frames files); [done|]. by destruct (inb _ _).
Qed.

(** The example files end with a saved catalog. *)
Lemma process_catalog_outcome_witness :
  frames_of (reads_of example_files) = Some example_files ∧
  distinct_headers example_files ∧
  ∃ lg final_df, process_catalog example_files = Ok (lg, Saved final_df).
Proof.
  split; [exact example_reads|]. split; [exact example_distinct_headers|].
  destruct (process_catalog_outcome _ example_files example_reads
              example_distinct_headers) as (lg & o & Hrun & Ho).
  destruct o as [| |final_df].
  - vm_compute in Ho. discriminate.
  - destruct Ho as [_ Hn]. exfalso. apply Hn.
    apply (bool_decide_unpack _). by vm_compute.
  - by exists lg, final_df.
Defined.

Lemma loaded_frames_readable files :
  loaded_frames (readable files) = loaded_frames files.
Proof.
  unfold loaded_frames, readable. f_equal.
  induction (omap id files) as [|df dfs IH]; [done|].
  simpl. f_equal. exact IH.
Qed.

(** X3: a file that could not be read is skipped and changes nothing but
    the log: the run ends as it does on the readable files alone, with the
    same saved frame. *)
Theorem unreadable_files_skipped `{ArgSort} files :
  outcome_of (process_catalog files) =
  outcome_of (process_catalog (readable files)) ∧
  snd (load_data files) = snd (load_data (readable files)).
Proof.
  split.
  - rewrite !outcome_closed. by rewrite loaded_frames_readable.
  - rewrite !load_data_frame. by rewrite loaded_frames_readable.
Qed.

Lemma elem_of_loaded_frames files df' :
  df' ∈ loaded_frames files ↔ ∃ df, Some df ∈ files ∧ df' = strip_columns df.
Proof.
  unfold loaded_frames. rewrite list_elem_of_fmap. split.
  - intros (df & -> & Hdf). exists df. split; [|done].
    apply list_elem_of_omap in Hdf as (f & Hf & Hid). simpl in Hid.
    by subst f.
  - intros (df & Hdf & ->). exists df. split; [done|].
    apply list_elem_of_omap. by exists (Some df).
Qed.

Lemma elem_of_columns_concat dataframes c :
  c ∈ columns (concat dataframes) ↔ ∃ df, df ∈ dataframes ∧ c ∈ columns df.
Proof.
  unfold concat. cbn [columns]. rewrite elem_of_unique.
  rewrite list_elem_of_In, in_flat_map. split.
  - intros (df & Hdf & Hc). exists df. by rewrite !list_elem_of_In.
  - intros (df & Hdf & Hc). exists df. by rewrite <- !list_elem_of_In.
Qed.

(** X4: the headers are stripped before they are used, so the loaded
    dataset has a column exactly when some sheet that was read has a header
    that is this name up to surrounding whitespace; so it is with the
    identifier column.
    For sheets of texts and blanks whose stripped headers are distinct. *)
Theorem headers_are_stripped reads files lg raw_df :
  frames_of reads = Some files →
  distinct_headers files →
  load_data files = (lg, Some raw_df) →
  (∀ c, c ∈ columns raw_df ↔
        ∃ df header, Some df ∈ files ∧ header ∈ columns df ∧ strip header = c) ∧
  (ID_COLUMN ∈ columns raw_df ↔
     ∃ df header, Some df ∈ files ∧ header ∈ columns df ∧
                  strip header = u "Артикул").
Proof.
  intros _ _ Hload. apply load_data_some in Hload as [_ ->].
  assert (∀ c, c ∈ columns (concat (loaded_frames files)) ↔
               ∃ df header, Some df ∈ files ∧ header ∈ columns df ∧
                            strip header = c) as Hcols.
  { intros c. rewrite elem_of_columns_concat. split.
    - intros (df' & Hdf' & Hc).
      apply elem_of_loaded_frames in Hdf' as (df & Hdf & ->).
      unfold strip_columns in Hc. cbn [columns] in Hc.
      apply list_elem_of_fmap in Hc as (header & -> & Hh).
      by exists df, header.
    - intros (df & header & Hdf & Hh & <-).
      exists (strip_columns df). split.
      + apply elem_of_loaded_frames. by exists df.
      + unfold strip_columns. cbn [columns].
        apply list_elem_of_fmap. by exists header. }
  split; [exact Hcols|]. apply Hcols.
Qed.

(** A sheet whose identifier header is padded with blanks. *)
Lemma headers_are_stripped_witness :
  frames_of (reads_of [Some blank_padded_sheet])
    = Some [Some blank_padded_sheet] ∧
  distinct_headers [Some blank_padded_sheet] ∧
  load_data [Some blank_padded_sheet]
  = ([(INFO, FilesFound 1); (INFO, Loaded 0 1)],
     Some (mkDataFrame [u "Артикул"; u "Бренд"] [[txt "X1"; txt "Acme"]])) ∧
  ID_COLUMN ∈ [u "Артикул"; u "Бренд"].
Proof.
  assert (frames_of (reads_of [Some blank_padded_sheet])
          = Some [Some blank_padded_sheet]) as Hr by (by vm_compute).
  assert (distinct_headers [Some blank_padded_sheet]) as Hd
    by (apply (bool_decide_unpack _); by vm_compute).
  assert (load_data [Some blank_padded_sheet]
          = ([(INFO, FilesFound 1); (INFO, Loaded 0 1)],
             Some (mkDataFrame [u "Артикул"; u "Бренд"]
                     [[txt "X1"; txt "Acme"]]))) as Hl by (by vm_compute).
  split; [exact Hr|]. split; [exact Hd|]. split; [exact Hl|].
  destruct (headers_are_stripped _ _ _ _ Hr Hd Hl) as [_ Hid].
  apply Hid.
  exists blank_padded_sheet, (u "  Артикул ").
  split; [left|]. split; [left|by vm_compute].
Defined.

Lemma length_rows_concat dataframes :
  length (rows (concat dataframes)) =
  sum_list (map (fun df => length (rows df)) dataframes).
Proof.
  rewrite rows_concat.
  generalize (columns (concat dataframes)). intros labels.
  induction dataframes as [|df dfs IH]; [done|].
  simpl. by rewrite length_app, length_map, IH.
Qed.

(** X5: loading loses and invents nothing: the loaded dataset has as many
    rows as the sheets that were read have together, and every row of a
    sheet is a row of the dataset with the same cell under every column,
    missing under the columns its sheet does not have.
    For sheets of texts and blanks whose stripped headers are distinct. *)
Theorem load_keeps_rows_and_cells reads files lg raw_df :
  frames_of reads = Some files →
  distinct_headers files →
  load_data files = (lg, Some raw_df) →
  length (rows raw_df) =
    sum_list (map (fun df => length (rows df)) (loaded_frames files)) ∧
  (∀ row, row ∈ rows raw_df →
     ∃ df r, df ∈ loaded_frames files ∧ r ∈ rows df ∧
       ∀ c, c ∈ columns raw_df → loc raw_df row c = loc df r c) ∧
  (∀ df r, df ∈ loaded_frames files → r ∈ rows df →
     ∃ row, row ∈ rows raw_df ∧
       (∀ c, c ∈ columns raw_df → loc raw_df row c = loc df r c) ∧
       (∀ c, c ∉ columns df → loc raw_df row c = nan)).
Proof.
  intros _ _ Hload. apply load_data_some in Hload as [_ ->].
  split; [apply length_rows_concat|]. split.
  - intros row Hrow.
    apply elem_of_rows_concat in Hrow as (df & r & Hdf & Hr & ->).
    exists df, r. split; [done|]. split; [done|].
    intros c Hc. by apply loc_concat.
  - intros df r Hdf Hr.
    exists (reindex (series df r) (columns (concat (loaded_frames files)))).
    split; [apply elem_of_rows_concat; by exists df, r|].
    split; [intros c Hc; by apply loc_concat|].
    intros c Hn. unfold loc.
    change (series (concat (loaded_frames files)) ?x)
      with (zip (columns (concat (loaded_frames files))) x).
    rewrite (reindex_absent df r _ c Hn). by destruct (inb c _).
Qed.

(** The example: six rows from two sheets of three. *)
Lemma load_keeps_rows_and_cells_witness :
  frames_of (reads_of example_files) = Some example_files ∧
  distinct_headers example_files ∧
  load_data example_files = (example_log, Some example_raw) ∧
  length (rows example_raw) = 6%nat.
Proof.
  assert (load_data example_files = (example_log, Some example_raw)) as Hl
    by (by vm_compute).
  split; [exact example_reads|]. split; [exact example_distinct_headers|].
  split; [exact Hl|].
  destruct (load_keeps_rows_and_cells _ example_files example_log example_raw example_reads example_distinct_headers Hl)
    as (Hlen & _).
  rewrite Hlen. by vm_compute.
Defined.

(** ** [extract_filters] beyond the rows of the pipeline *)

Lemma for_each_app {A B : Type} (body : B → A → result B) l1 l2 acc :
  for_each body (l1 ++ l2) acc =
  match for_each body l1 acc with
  | Ok acc' => for_each body l2 acc'
  | Raise e => Raise e
  end.
Proof.
  revert acc. induction l1 as [|x l1 IH]; intros acc; [done|].
  simpl app. rewrite !for_each_cons.
  destruct (body acc x); [apply IH|done].
Qed.

Lemma for_each_ext {A B : Type} (body1 body2 : B → A → result B) l acc :
  (∀ x acc', x ∈ l → body1 acc' x = body2 acc' x) →
  for_each body1 l acc = for_each body2 l acc.
Proof.
  revert acc. induction l as [|x l IH]; intros acc Hext; [done|].
  rewrite !for_each_cons, (Hext x acc) by left.
  destruct (body2 acc x); [|done].
  apply IH. intros y acc' Hy. apply Hext. by right.
Qed.

(** X6: the direct filter columns are read behind a membership test, the
    boolean-flag columns are not: when the universe names a flag column
    that the row does not hold, the extractor raises [KeyError] for the
    first such column, whatever the row holds otherwise. *)
Theorem extract_filters_key_error row source_columns pre c post :
  boolean_cols source_columns = pre ++ c :: post →
  Forall (fun p => p ∈ index row) pre →
  c ∉ index row →
  extract_filters row source_columns = Raise (KeyError c).
Proof.
  intros Hcols Hpre Hc. unfold extract_filters.
  rewrite for_each_direct.
  change (Ok ?a ≫= ?f) with (f a). cbv beta.
  rewrite Hcols, for_each_app, for_each_boolean by done.
  rewrite for_each_cons. unfold boolean_step at 1.
  by rewrite (getitem_notin _ _ Hc).
Qed.

(** A row of a sheet without the flag column, scanned with a universe that
    has it. *)
Lemma extract_filters_key_error_witness :
  boolean_cols [u "Артикул"; u "Дополнительный фильтр тонкой очистки угольный"]
    = [] ++ u "Дополнительный фильтр тонкой очистки угольный" :: [] ∧
  extract_filters [(u "Артикул", txt "X1"); (u "Фильтра", txt "HEPA")]
    [u "Артикул"; u "Дополнительный фильтр тонкой очистки угольный"]
  = Raise (KeyError (u "Дополнительный фильтр тонкой очистки угольный")).
Proof.
  assert (boolean_cols
            [u "Артикул"; u "Дополнительный фильтр тонкой очистки угольный"]
          = [] ++ u "Дополнительный фильтр тонкой очистки угольный" :: [])
    as Hcols by (by vm_compute).
  split; [exact Hcols|].
  apply (extract_filters_key_error _ _ [] _ [] Hcols).
  - constructor.
  - apply (bool_decide_unpack _). by vm_compute.
Defined.

Lemma inb_index_getitem row key :
  inb key (index row) =
  match getitem row key with Ok _ => true | Raise _ => false end.
Proof.
  destruct (inb key (index row)) eqn:E.
  - apply inb_true, getitem_in in E as [v ->]. done.
  - apply inb_false, getitem_notin in E. by rewrite E.
Qed.

(** X7: the extractor reads the row under the direct filter columns and
    under the boolean-flag columns of the universe only: two rows that
    agree there give the same result, be it a value or a raise. *)
Theorem extract_filters_reads_only row1 row2 source_columns :
  (∀ c, c ∈ FILTER_KEYS ∨ c ∈ boolean_cols source_columns →
        getitem row1 c = getitem row2 c) →
  extract_filters row1 source_columns = extract_filters row2 source_columns.
Proof.
  intros Hagree. unfold extract_filters.
  rewrite (for_each_ext (direct_step row1) (direct_step row2)).
  - destruct (for_each (direct_step row2) FILTER_KEYS []) as [acc|e]; [|done].
    change (Ok ?a ≫= ?f) with (f a). cbv beta.
    rewrite (for_each_ext (boolean_step row1) (boolean_step row2)); [done|].
    intros c acc' Hc. unfold boolean_step. by rewrite Hagree by (by right).
  - intros key acc' Hkey. unfold direct_step.
    by rewrite !inb_index_getitem, Hagree by (by left).
Qed.

(** Two rows that differ in the identifier and in a column that is no
    filter column. *)
Lemma extract_filters_reads_only_witness :
  extract_filters
    [(u "Артикул", txt "X1"); (u "Фильтра", txt "HEPA"); (u "Цена", txt "5")]
    [u "Артикул"; u "Фильтра"; u "Цена"] =
  extract_filters
    [(u "Цена", nan); (u "Артикул", txt "X2"); (u "Фильтра", txt "HEPA")]
    [u "Артикул"; u "Фильтра"; u "Цена"].
Proof.
  apply extract_filters_reads_only.
  intros c [Hc|Hc].
  - unfold FILTER_KEYS in Hc.
    repeat (apply elem_of_cons in Hc as [->|Hc]; [by vm_compute|]).
    by apply elem_of_nil in Hc.
  - assert (boolean_cols [u "Артикул"; u "Фильтра"; u "Цена"] = []) as Hb
      by (by vm_compute).
    rewrite Hb in Hc. by apply elem_of_nil in Hc.
Defined.

(** ** The merged frame *)

Lemma str_ltb_antisym a : ∀ b,
  str_ltb a b = false → str_ltb b a = false → a = b.
Proof.
  induction a as [|x a IH]; intros [|y b]; simpl; try done.
  intros H1 H2.
  apply orb_false_iff in H1 as [H1 H1'], H2 as [H2 H2'].
  apply N.ltb_ge in H1, H2. assert (x = y) as -> by lia.
  rewrite N.eqb_refl in H1', H2'. simpl in *. f_equal. by apply IH.
Qed.

#[global] Instance str_le_antisym : AntiSymm (=) str_le.
Proof.
  intros a b. unfold str_le, str_leb. rewrite !negb_true_iff.
  intros H1 H2. by apply str_ltb_antisym.
Qed.

Lemma str_le_lt a b : str_le a b → a ≠ b → str_lt a b.
Proof.
  unfold str_le, str_leb, str_lt. rewrite negb_true_iff. intros Hle Hne.
  destruct (str_ltb a b) eqn:E; [done|].
  exfalso. apply Hne. by apply str_ltb_antisym.
Qed.

Lemma strictly_sorted (l : list pystr) :
  StronglySorted str_le l → NoDup l → StronglySorted str_lt l.
Proof.
  induction 1 as [|x l _ IH Hx]; intros Hnd; constructor.
  - apply IH. by apply NoDup_cons in Hnd as [_ ?].
  - apply NoDup_cons in Hnd as [Hnx _].
    apply Forall_forall. intros y Hy. apply str_le_lt.
    + by apply (proj1 (Forall_forall _ _) Hx).
    + by intros ->.
Qed.

Lemma NoDup_keys raw_df : NoDup (merged_keys raw_df).
Proof. rewrite merged_keys_perm. apply NoDup_unique. Qed.

Lemma sorted_keys raw_df : StronglySorted str_le (merged_keys raw_df).
Proof. unfold merged_keys, group_keys. apply StronglySorted_merge_sort; apply _. Qed.

Lemma merged_value_identifier raw_df k :
  merged_value raw_df k ID_COLUMN = text k.
Proof. done. Qed.

Lemma merged_identifiers raw_df :
  map (fun row => loc (mkDataFrame CANONICAL (merged_rows raw_df)) row ID_COLUMN)
    (merged_rows raw_df) = map text (merged_keys raw_df).
Proof.
  unfold merged_rows. rewrite map_map. apply map_ext. intros k.
  by rewrite loc_map by apply id_in_canonical.
Qed.

(** X8: the merge returns the products in ascending order of identifier,
    each identifier once: down the merged frame the identifiers strictly
    increase.
    For sheets of texts and blanks whose stripped headers are distinct. *)
Theorem merged_in_identifier_order reads files lg raw_df :
  frames_of reads = Some files →
  distinct_headers files →
  load_data files = (lg, Some raw_df) →
  ID_COLUMN ∈ columns raw_df →
  ∃ lg1 temp_df merged_df ids,
    canonical_frame raw_df (lg ++ [(INFO, BuildingCatalog)])
      = Ok (lg1, temp_df) ∧
    merge_duplicates temp_df = Ok merged_df ∧
    map (fun row => loc merged_df row ID_COLUMN) (rows merged_df)
      = map text ids ∧
    StronglySorted str_lt ids.
Proof.
  intros _ _ Hload Hid.
  pose proof (load_data_some _ _ _ Hload) as [_ Hraw].
  assert (full raw_df) as Hfull by (rewrite Hraw; apply concat_full).
  eexists _, (temp_frame raw_df), (mkDataFrame CANONICAL (merged_rows raw_df)),
    (merged_keys raw_df).
  split; [by apply canonical_frame_closed|].
  split; [apply merge_duplicates_closed|].
  split; [apply merged_identifiers|].
  apply strictly_sorted; [apply sorted_keys|apply NoDup_keys].
Qed.

(** The example: the identifiers come out as X1, X2, X3. *)
Lemma merged_in_identifier_order_witness :
  frames_of (reads_of example_files) = Some example_files ∧
  distinct_headers example_files ∧
  load_data example_files = (example_log, Some example_raw) ∧
  ID_COLUMN ∈ columns example_raw ∧
  ∃ merged_df ids,
    merge_duplicates (temp_frame example_raw) = Ok merged_df ∧
    map (fun row => loc merged_df row ID_COLUMN) (rows merged_df)
      = map text ids ∧
    StronglySorted str_lt ids.
Proof.
  assert (load_data example_files = (example_log, Some example_raw)) as Hl
    by (by vm_compute).
  split; [exact example_reads|]. split; [exact example_distinct_headers|].
  split; [exact Hl|]. split; [exact example_has_identifier|].
  destruct (merged_in_identifier_order _ example_files example_log example_raw
              example_reads example_distinct_headers Hl example_has_identifier)
    as (lg1 & temp_df & merged_df & ids & Htemp & Hm & Hids & Hs).
  assert (full example_raw) as Hfull
    by (apply (bool_decide_unpack _); by vm_compute).
  rewrite (canonical_frame_closed _ _ Hfull example_has_identifier) in Htemp.
  injection Htemp as _ <-.
  by exists merged_df, ids.
Defined.

Lemma first_valid_singleton v : first_valid [v] = v.
Proof. rewrite first_valid_cons. by destruct v. Qed.

(** X9: a product that occurs in one loaded row only passes through the
    merge unchanged: its canonical row is a row of the saved frame.
    For sheets of texts and blanks whose stripped headers are distinct. *)
Theorem single_row_kept `{ArgSort} reads files lg raw_df :
  frames_of reads = Some files →
  distinct_headers files →
  load_data files = (lg, Some raw_df) →
  ID_COLUMN ∈ columns raw_df →
  ∃ lg1 temp_df lg2 final_df,
    canonical_frame raw_df (lg ++ [(INFO, BuildingCatalog)])
      = Ok (lg1, temp_df) ∧
    process_catalog files = Ok (lg2, Saved final_df) ∧
    ∀ row k,
      filter (fun r => loc temp_df r ID_COLUMN = text k) (rows temp_df) = [row] →
      row ∈ rows final_df.
Proof.
  intros _ _ Hload Hid.
  pose proof (load_data_some _ _ _ Hload) as [_ Hraw].
  assert (full raw_df) as Hfull by (rewrite Hraw; apply concat_full).
  eexists _, (temp_frame raw_df), _, (final_frame raw_df).
  split; [by apply canonical_frame_closed|].
  split; [by apply process_catalog_closed|].
  intros row k Hgroup. rewrite temp_frame_group in Hgroup.
  destruct (group_of raw_df k) as [|r [|r' rest]] eqn:Eg; try done.
  assert (row = map (canonical_value raw_df r) CANONICAL) as ->
    by (symmetry; exact (f_equal (fun l => default row (head l)) Hgroup)).
  assert (r ∈ group_of raw_df k) as Hr by (rewrite Eg; left).
  apply elem_of_group_of in Hr as [Hk Hr].
  change (rows (final_frame raw_df)) with (final_rows raw_df).
  apply elem_of_final_rows. exists k. split.
  - apply elem_of_merged_keys. by exists r.
  - apply map_ext. intros field. unfold merged_value.
    destruct (str_eqb field ID_COLUMN) eqn:E.
    + apply str_eqb_eq in E. subst field. by rewrite canonical_value_id.
    + rewrite Eg. simpl map. by rewrite first_valid_singleton.
Qed.

(** The example: X3 occurs once and keeps its row. *)
Lemma single_row_kept_witness :
  frames_of (reads_of example_files) = Some example_files ∧
  distinct_headers example_files ∧
  load_data example_files = (example_log, Some example_raw) ∧
  ID_COLUMN ∈ columns example_raw ∧
  ∃ lg final_df,
    process_catalog example_files = Ok (lg, Saved final_df) ∧
    [txt "X3"; nan; txt "300"; nan; nan; nan; nan; nan; nan; nan; nan; nan;
     nan; nan] ∈ rows final_df.
Proof.
  assert (load_data example_files = (example_log, Some example_raw)) as Hl
    by (by vm_compute).
  split; [exact example_reads|]. split; [exact example_distinct_headers|].
  split; [exact Hl|]. split; [exact example_has_identifier|].
  destruct (single_row_kept _ example_files example_log example_raw
              example_reads example_distinct_headers Hl example_has_identifier)
    as (lg1 & temp_df & lg2 & final_df & Htemp & Hrun & Hkept).
  assert (full example_raw) as Hfull
    by (apply (bool_decide_unpack _); by vm_compute).
  rewrite (canonical_frame_closed _ _ Hfull example_has_identifier) in Htemp.
  injection Htemp as _ <-.
  exists lg2, final_df. split; [exact Hrun|].
  apply (Hkept _ (u "X3")). by vm_compute.
Defined.

Lemma filter_ne_notin (x : pystr) (l : list pystr) :
  x ∉ l → filter (fun y => y ≠ x) l = l.
Proof.
  induction l as [|y l IH]; [done|].
  intros [Hne Hx]%not_elem_of_cons.
  rewrite filter_cons, decide_True by (by intros ->).
  f_equal. by apply IH.
Qed.

Lemma unique_NoDup (l : list pystr) : NoDup l → unique l = l.
Proof.
  induction 1 as [|x l Hx _ IH]; [done|].
  simpl. rewrite IH. f_equal. by apply filter_ne_notin.
Qed.

Lemma omap_text_of_text (keys : list pystr) :
  omap text_of (map text keys) = keys.
Proof.
  induction keys as [|k keys IH]; [done|].
  simpl. f_equal. exact IH.
Qed.

Lemma group_keys_sorted (keys : list pystr) :
  StronglySorted str_le keys → NoDup keys →
  group_keys (map text keys) = keys.
Proof.
  intros Hs Hnd. unfold group_keys.
  rewrite omap_text_of_text, (unique_NoDup _ Hnd).
  apply (Sorted_unique str_le).
  - apply Sorted_merge_sort, _.
  - by apply StronglySorted_Sorted.
  - apply merge_sort_Permutation.
Qed.

Lemma filter_eq_NoDup (keys : list pystr) k :
  NoDup keys → k ∈ keys → filter (fun k' => text k' = text k) keys = [k].
Proof.
  induction 1 as [|x l Hx Hnd IH]; [by intros ?%elem_of_nil|].
  intros Hk. rewrite filter_cons.
  destruct (decide (text x = text k)) as [[= ->]|Hne].
  - f_equal. clear IH Hk. induction l as [|y l IHl]; [done|].
    apply not_elem_of_cons in Hx as [Hne Hx].
    apply NoDup_cons in Hnd as [_ Hnd].
    rewrite filter_cons, decide_False by (intros [= ->]; done).
    by apply IHl.
  - apply elem_of_cons in Hk as [->|Hk]; [done|]. by apply IH.
Qed.

(** X10: merging is idempotent: the merge of the merged frame is the merged
    frame.
    For sheets of texts and blanks whose stripped headers are distinct. *)
Theorem merge_idempotent reads files lg raw_df :
  frames_of reads = Some files →
  distinct_headers files →
  load_data files = (lg, Some raw_df) →
  ID_COLUMN ∈ columns raw_df →
  ∃ lg1 temp_df merged_df,
    canonical_frame raw_df (lg ++ [(INFO, BuildingCatalog)])
      = Ok (lg1, temp_df) ∧
    merge_duplicates temp_df = Ok merged_df ∧
    merge_duplicates merged_df = Ok merged_df.
Proof.
  intros _ _ Hload Hid.
  pose proof (load_data_some _ _ _ Hload) as [_ Hraw].
  assert (full raw_df) as Hfull by (rewrite Hraw; apply concat_full).
  eexists _, (temp_frame raw_df), (mkDataFrame CANONICAL (merged_rows raw_df)).
  split; [by apply canonical_frame_closed|].
  split; [apply merge_duplicates_closed|].
  unfold merge_duplicates, merged_rows.
  rewrite (groupby_agg_closed (merged_keys raw_df) CANONICAL
             (merged_value raw_df)) by apply id_in_canonical.
  rewrite (map_ext (fun k => merged_value raw_df k ID_COLUMN) text)
    by (intros k; apply merged_value_identifier).
  rewrite group_keys_sorted by (apply sorted_keys || apply NoDup_keys).
  f_equal.
  assert (ID_COLUMN :: filter (fun c => c ≠ ID_COLUMN) CANONICAL = CANONICAL)
    as -> by (by vm_compute).
  f_equal. apply map_ext_in. intros k Hk. apply list_elem_of_In in Hk.
  trans (map (fun field => if str_eqb field ID_COLUMN then text k
                           else merged_value raw_df k field) CANONICAL).
  - rewrite <- (merged_row_shape (text k) (merged_value raw_df k)).
    f_equal. apply map_ext. intros c.
    rewrite (list_filter_iff _ (fun k' => text k' = text k))
      by (intros k'; by rewrite merged_value_identifier).
    rewrite (filter_eq_NoDup _ _ (NoDup_keys raw_df) Hk).
    apply first_valid_singleton.
  - apply map_ext. intros field.
    destruct (str_eqb field ID_COLUMN) eqn:E; [|done].
    apply str_eqb_eq in E. by subst field.
Qed.

(** The example files: a second merge leaves the three rows as they are. *)
Lemma merge_idempotent_witness :
  frames_of (reads_of example_files) = Some example_files ∧
  distinct_headers example_files ∧
  load_data example_files = (example_log, Some example_raw) ∧
  ID_COLUMN ∈ columns example_raw ∧
  ∃ merged_df,
    merge_duplicates (temp_frame example_raw) = Ok merged_df ∧
    merge_duplicates merged_df = Ok merged_df.
Proof.
  assert (load_data example_files = (example_log, Some example_raw)) as Hl
    by (by vm_compute).
  split; [exact example_reads|]. split; [exact example_distinct_headers|].
  split; [exact Hl|]. split; [exact example_has_identifier|].
  destruct (merge_idempotent _ example_files example_log example_raw
              example_reads example_distinct_headers Hl example_has_identifier)
    as (lg1 & temp_df & merged_df & Htemp & Hm & Hmm).
  assert (full example_raw) as Hfull
    by (apply (bool_decide_unpack _); by vm_compute).
  rewrite (canonical_frame_closed _ _ Hfull example_has_identifier) in Htemp.
  injection Htemp as _ <-.
  by exists merged_df.
Defined.

(** ** Where the values of the catalog come from *)

Lemma first_valid_elem xs s : first_valid xs = text s → text s ∈ xs.
Proof.
  intros Hv.
  destruct (first_valid_spec xs) as [(pre & s' & post & -> & _ & Hs)|[_ Hn]].
  - rewrite Hv in Hs. injection Hs as <-.
    apply elem_of_app. right. left.
  - by rewrite Hv in Hn.
Qed.

Lemma mapping_target_canonical target sources :
  (target, sources) ∈ MAPPING → target ∈ CANONICAL.
Proof.
  intros Hin. right. apply elem_of_app. left.
  apply list_elem_of_fmap. by exists (target, sources).
Qed.

Lemma mapping_target_not_identifier target sources :
  (target, sources) ∈ MAPPING → str_eqb target ID_COLUMN = false.
Proof.
  intros Hin.
  assert (Forall (fun item => str_eqb (fst item) ID_COLUMN = false) MAPPING)
    as Hall by (apply (bool_decide_unpack _); by vm_compute).
  exact (mapping_item_cases _ Hall (target, sources) Hin).
Qed.

Lemma canonical_value_mapping raw_df r target sources :
  (target, sources) ∈ MAPPING →
  canonical_value raw_df r target = field_value raw_df sources r.
Proof.
  intros Hin.
  exact (pick_mapping _ _ (fun sources => field_value raw_df sources r)
           target sources Hin).
Qed.

(** X11: the catalog invents no value: a text in a mapped field of a saved
    row is the cell of a loaded row with the same identifier, under the
    column bound to the field.
    For sheets of texts and blanks whose stripped headers are distinct. *)
Theorem values_come_from_input `{ArgSort} reads files lg raw_df target sources :
  frames_of reads = Some files →
  distinct_headers files →
  load_data files = (lg, Some raw_df) →
  ID_COLUMN ∈ columns raw_df →
  (target, sources) ∈ MAPPING →
  ∃ lg' final_df,
    process_catalog files = Ok (lg', Saved final_df) ∧
    ∀ row s, row ∈ rows final_df → loc final_df row target = text s →
      ∃ c r k,
        next_match sources (columns raw_df) = Some c ∧
        r ∈ rows raw_df ∧
        loc raw_df r ID_COLUMN = text k ∧
        loc final_df row ID_COLUMN = text k ∧
        loc raw_df r c = text s.
Proof.
  intros _ _ Hload Hid Hin. eexists _, (final_frame raw_df).
  split; [by apply process_catalog_closed|].
  intros row s Hrow Hs. change (row ∈ final_rows raw_df) in Hrow.
  apply elem_of_final_rows in Hrow as (k & Hk & ->).
  rewrite loc_final_frame in Hs by (by apply (mapping_target_canonical _ sources)).
  unfold merged_value in Hs.
  rewrite (mapping_target_not_identifier _ _ Hin) in Hs.
  apply first_valid_elem, list_elem_of_fmap in Hs as (r & Hv & Hr).
  apply elem_of_group_of in Hr as [Hrk Hr].
  rewrite (canonical_value_mapping _ _ _ _ Hin) in Hv.
  unfold field_value in Hv.
  destruct (next_match sources (columns raw_df)) as [c|]; [|done].
  destruct (truthy c); [|done].
  exists c, r, k. split; [done|]. split; [done|]. split; [done|].
  split; [|done]. by rewrite loc_final_frame by apply id_in_canonical.
Qed.

(** The price of the example catalog. *)
Lemma values_come_from_input_witness :
  frames_of (reads_of example_files) = Some example_files ∧
  distinct_headers example_files ∧
  load_data example_files = (example_log, Some example_raw) ∧
  ID_COLUMN ∈ columns example_raw ∧
  (u "Цена", price_sources) ∈ MAPPING ∧
  ∃ lg final_df, process_catalog example_files = Ok (lg, Saved final_df).
Proof.
  assert (load_data example_files = (example_log, Some example_raw)) as Hl
    by (by vm_compute).
  assert ((u "Цена", price_sources) ∈ MAPPING) as Hm
    by (apply (bool_decide_unpack _); by vm_compute).
  split; [exact example_reads|]. split; [exact example_distinct_headers|].
  split; [exact Hl|]. split; [exact example_has_identifier|].
  split; [exact Hm|].
  destruct (values_come_from_input _ example_files example_log example_raw
              (u "Цена") price_sources example_reads example_distinct_headers Hl example_has_identifier Hm)
    as (lg' & final_df & Hrun & _).
  by exists lg', final_df.
Defined.

Lemma loc_absent df r label : label ∉ columns df → loc df r label = nan.
Proof.
  intros Hn. unfold loc. rewrite getitem_notin; [done|].
  intros Hin. by apply Hn, (index_series_subseteq df r).
Qed.

(** X12: the alias is resolved once for the whole dataset and the sheets
    are not blended: in a row of a sheet that lacks the bound column the
    field is missing before the merge, whatever the sheet holds under the
    other candidates.
    For sheets of texts and blanks whose stripped headers are distinct. *)
Theorem alias_not_blended reads files lg raw_df target sources c df r :
  frames_of reads = Some files →
  distinct_headers files →
  load_data files = (lg, Some raw_df) →
  ID_COLUMN ∈ columns raw_df →
  (target, sources) ∈ MAPPING →
  next_match sources (columns raw_df) = Some c →
  df ∈ loaded_frames files →
  c ∉ columns df →
  r ∈ rows df →
  ∃ lg1 temp_df i row temp_row,
    canonical_frame raw_df (lg ++ [(INFO, BuildingCatalog)])
      = Ok (lg1, temp_df) ∧
    rows raw_df !! i = Some row ∧
    (∀ c', c' ∈ columns raw_df → loc raw_df row c' = loc df r c') ∧
    rows temp_df !! i = Some temp_row ∧
    loc temp_df temp_row ID_COLUMN = loc df r ID_COLUMN ∧
    loc temp_df temp_row target = nan.
Proof.
  intros _ _ Hload Hid Hin Hnext Hdf Hc Hr.
  pose proof (load_data_some _ _ _ Hload) as [_ Hraw].
  assert (full raw_df) as Hfull by (rewrite Hraw; apply concat_full).
  set (row := reindex (series df r) (columns raw_df)).
  assert (row ∈ rows raw_df) as Hrow.
  { unfold row. rewrite Hraw. apply elem_of_rows_concat. by exists df, r. }
  assert (∀ c', c' ∈ columns raw_df → loc raw_df row c' = loc df r c') as Hloc.
  { intros c' Hc'. unfold row. rewrite Hraw. apply loc_concat.
    by rewrite <- Hraw. }
  apply list_elem_of_lookup in Hrow as [i Hi].
  eexists _, (temp_frame raw_df), i, row,
    (map (canonical_value raw_df row) CANONICAL).
  split; [by apply canonical_frame_closed|].
  split; [done|]. split; [done|].
  split.
  { unfold temp_frame. cbn [rows].
    change (map ?f (rows raw_df)) with (f <$> rows raw_df).
    by rewrite list_lookup_fmap, Hi. }
  split.
  { unfold temp_frame. rewrite loc_map by apply id_in_canonical.
    rewrite canonical_value_id. by apply Hloc. }
  unfold temp_frame.
  rewrite loc_map by (by apply (mapping_target_canonical _ sources)).
  rewrite (canonical_value_mapping _ _ _ _ Hin).
  unfold field_value. rewrite Hnext.
  destruct (truthy c); [|done].
  apply next_match_in in Hnext as [_ Hcin].
  rewrite (Hloc c Hcin). by apply loc_absent.
Qed.

(** The example: the second sheet names the manufacturer under the second
    candidate; its rows get no manufacturer, the first candidate being
    among the columns of the dataset. *)
Lemma alias_not_blended_witness :
  frames_of (reads_of example_files) = Some example_files ∧
  distinct_headers example_files ∧
  loc (strip_columns example_sheet2) [txt "Beta"; txt "X3"; txt "300"; txt "9"]
    (u "Производитель") = txt "Beta" ∧
  ∃ temp_df i temp_row,
    rows temp_df !! i = Some temp_row ∧
    loc temp_df temp_row ID_COLUMN = txt "X3" ∧
    loc temp_df temp_row (u "Производитель") = nan.
Proof.
  split; [exact example_reads|]. split; [exact example_distinct_headers|].
  split; [by vm_compute|].
  assert (load_data example_files = (example_log, Some example_raw)) as Hl
    by (by vm_compute).
  destruct (alias_not_blended _ example_files example_log example_raw
              (u "Производитель")
              (map u ["Бренд"; "Производитель"; "Заводская маркировка"]%string)
              (u "Бренд") (strip_columns example_sheet2)
              [txt "Beta"; txt "X3"; txt "300"; txt "9"]
              example_reads example_distinct_headers
              Hl example_has_identifier)
    as (lg1 & temp_df & i & row & temp_row & _ & _ & _ & Hti & Hid & Hnan).
  - apply (bool_decide_unpack _). by vm_compute.
  - by vm_compute.
  - apply list_elem_of_fmap. exists example_sheet2. split; [done|].
    right. left.
  - apply (bool_decide_unpack _). by vm_compute.
  - right. left.
  - exists temp_df, i, temp_row. split; [exact Hti|]. split; [|exact Hnan].
    rewrite Hid. by vm_compute.
Defined.

(** ** A saved catalog as input *)

Lemma direct_filters_absent row :
  Forall (fun key => key ∉ index row) FILTER_KEYS → direct_filters row = [].
Proof.
  unfold direct_filters. induction 1 as [|key keys Hkey _ IH]; [done|].
  change (omap (direct_value row) (key :: keys))
    with (match direct_value row key with
          | Some s => s :: omap (direct_value row) keys
          | None => omap (direct_value row) keys
          end).
  unfold direct_value at 1. by rewrite (getitem_notin _ _ Hkey).
Qed.

Lemma row_filters_canonical rs r :
  row_filters (mkDataFrame CANONICAL rs) r = nan.
Proof.
  unfold row_filters. rewrite direct_filters_absent.
  - unfold flag_filters. cbn [columns].
    by assert (boolean_cols CANONICAL = []) as -> by (by vm_compute).
  - apply Forall_forall. intros key Hkey Hin.
    apply index_series_subseteq in Hin. cbn [columns] in Hin.
    revert Hkey Hin. unfold FILTER_KEYS.
    intros Hkey. repeat (apply elem_of_cons in Hkey as [->|Hkey];
      [apply (bool_decide_unpack _); by vm_compute|]).
    by apply elem_of_nil in Hkey.
Qed.

Lemma canonical_value_not_self_aliased rs r field :
  field ∈ NOT_SELF_ALIASED →
  canonical_value (mkDataFrame CANONICAL rs) r field = nan.
Proof.
  intros Hf. unfold NOT_SELF_ALIASED in Hf. cbn [map] in Hf.
  repeat (apply elem_of_cons in Hf as [->|Hf]; [reflexivity|]).
  apply elem_of_cons in Hf as [->|Hf]; [|by apply elem_of_nil in Hf].
  apply row_filters_canonical.
Qed.

Lemma canonical_value_self_aliased rs r field :
  field ∈ SELF_ALIASED →
  canonical_value (mkDataFrame CANONICAL rs) r field =
  loc (mkDataFrame CANONICAL rs) r field.
Proof.
  intros Hf. unfold SELF_ALIASED in Hf. cbn [map] in Hf.
  repeat (apply elem_of_cons in Hf as [->|Hf]; [reflexivity|]).
  by apply elem_of_nil in Hf.
Qed.

Lemma first_valid_all_nan {X : Type} (xs : list X) :
  first_valid (map (fun _ => nan) xs) = nan.
Proof.
  induction xs as [|x xs IH]; [done|].
  simpl map. by rewrite first_valid_cons.
Qed.

(** X13: the script does not read its own catalog back whole: when the
    columns of the loaded dataset are the canonical ones, the identifier
    and the seven fields that are among their own candidates are merged
    from the columns of their name, and the five other fields and the
    filters field are missing in every saved row.
    For sheets of texts and blanks whose stripped headers are distinct. *)
Theorem saved_catalog_reloaded `{ArgSort} reads files lg raw_df :
  frames_of reads = Some files →
  distinct_headers files →
  load_data files = (lg, Some raw_df) →
  columns raw_df = ID_COLUMN :: map fst MAPPING ++ [FILTERS_FIELD] →
  ∃ lg' final_df,
    process_catalog files = Ok (lg', Saved final_df) ∧
    (∀ row field, row ∈ rows final_df → field ∈ NOT_SELF_ALIASED →
       loc final_df row field = nan) ∧
    (∀ row field, row ∈ rows final_df → field ∈ SELF_ALIASED →
       ∃ k, loc final_df row ID_COLUMN = text k ∧
         first_non_missing
           (map (fun r => loc raw_df r field)
              (filter (fun r => loc raw_df r ID_COLUMN = text k)
                 (rows raw_df)))
           (loc final_df row field)).
Proof.
  intros _ _ Hload Hcols.
  assert (ID_COLUMN ∈ columns raw_df) as Hid by (rewrite Hcols; left).
  eexists _, (final_frame raw_df).
  split; [by apply process_catalog_closed|].
  clear Hload. destruct raw_df as [cols rs]. cbn [columns] in Hcols.
  change (cols = CANONICAL) in Hcols. subst cols.
  split.
  - intros row field Hrow Hf.
    change (row ∈ final_rows (mkDataFrame CANONICAL rs)) in Hrow.
    apply elem_of_final_rows in Hrow as (k & Hk & ->).
    assert (field ∈ CANONICAL) as Hfc.
    { revert Hf. unfold NOT_SELF_ALIASED. cbn [map]. intros Hf.
      repeat (apply elem_of_cons in Hf as [->|Hf];
        [apply (bool_decide_unpack _); by vm_compute|]).
      by apply elem_of_nil in Hf. }
    rewrite loc_final_frame by done. unfold merged_value.
    assert (str_eqb field ID_COLUMN = false) as ->.
    { revert Hf. unfold NOT_SELF_ALIASED. cbn [map]. intros Hf.
      repeat (apply elem_of_cons in Hf as [->|Hf]; [by vm_compute|]).
      by apply elem_of_nil in Hf. }
    rewrite (map_ext _ (fun _ => nan))
      by (intros r; by apply canonical_value_not_self_aliased).
    apply first_valid_all_nan.
  - intros row field Hrow Hf.
    change (row ∈ final_rows (mkDataFrame CANONICAL rs)) in Hrow.
    apply elem_of_final_rows in Hrow as (k & Hk & ->).
    assert (field ∈ CANONICAL) as Hfc.
    { revert Hf. unfold SELF_ALIASED. cbn [map]. intros Hf.
      repeat (apply elem_of_cons in Hf as [->|Hf];
        [apply (bool_decide_unpack _); by vm_compute|]).
      by apply elem_of_nil in Hf. }
    exists k. split; [by rewrite loc_final_frame by apply id_in_canonical|].
    rewrite loc_final_frame by done.
    pose proof (merged_value_spec (mkDataFrame CANONICAL rs) k field Hk)
      as Hspec.
    rewrite (map_ext _ (fun r => loc (mkDataFrame CANONICAL rs) r field))
      in Hspec by (intros r; by apply canonical_value_self_aliased).
    exact Hspec.
Qed.

(** A catalog read back: cooling power and noise level were there and are
    gone, and so are the filters. *)
Lemma saved_catalog_reloaded_witness :
  frames_of (reads_of [Some saved_catalog]) = Some [Some saved_catalog] ∧
  distinct_headers [Some saved_catalog] ∧
  load_data [Some saved_catalog]
    = ([(INFO, FilesFound 1); (INFO, Loaded 0 3)], Some saved_catalog) ∧
  columns saved_catalog = ID_COLUMN :: map fst MAPPING ++ [FILTERS_FIELD] ∧
  ∃ lg final_df,
    process_catalog [Some saved_catalog] = Ok (lg, Saved final_df) ∧
    ∀ row, row ∈ rows final_df →
      loc final_df row (u "Мощность в режиме охлаждения") = nan ∧
      loc final_df row (u "Уровень шума") = nan ∧
      loc final_df row FILTERS_FIELD = nan.
Proof.
  assert (load_data [Some saved_catalog]
          = ([(INFO, FilesFound 1); (INFO, Loaded 0 3)], Some saved_catalog))
    as Hl by (by vm_compute).
  assert (columns saved_catalog
          = ID_COLUMN :: map fst MAPPING ++ [FILTERS_FIELD]) as Hc
    by (by vm_compute).
  assert (frames_of (reads_of [Some saved_catalog])
          = Some [Some saved_catalog]) as Hr by (by vm_compute).
  assert (distinct_headers [Some saved_catalog]) as Hd
    by (apply (bool_decide_unpack _); by vm_compute).
  split; [exact Hr|]. split; [exact Hd|].
  split; [exact Hl|]. split; [exact Hc|].
  destruct (saved_catalog_reloaded _ [Some saved_catalog] _ _ Hr Hd Hl Hc)
    as (lg' & final_df & Hrun & Hlost & _).
  exists lg', final_df. split; [exact Hrun|].
  intros row Hrow.
  split; [|split]; apply Hlost; try exact Hrow;
    apply (bool_decide_unpack _); by vm_compute.
Defined.

(** ** The log of a run that saves *)

Lemma field_record_spec raw_df item :
  item ∈ MAPPING →
  match next_match (snd item) (columns raw_df) with
  | Some c => field_record raw_df item = (INFO, Mapped (fst item) c)
  | None => field_record raw_df item = (WARNING, FieldNotFound (fst item))
  end.
Proof.
  intros Hin. unfold field_record.
  destruct (next_match _ _) as [c|] eqn:E; [|done].
  apply next_match_in in E as [Hc _].
  destruct item as [target sources].
  by rewrite (mapping_sources_truthy target sources c Hin Hc).
Qed.

(** X14: after the records of [load_data], a run that saves logs the start,
    one record per field of the alias map in its order, the bound column
    or the warning that none was found, the three steps, and the success
    with the number of saved rows, which is the number of distinct
    identifiers.
    For sheets of texts and blanks whose stripped headers are distinct. *)
Theorem log_of_saving_run `{ArgSort} reads files lg raw_df :
  frames_of reads = Some files →
  distinct_headers files →
  load_data files = (lg, Some raw_df) →
  ID_COLUMN ∈ columns raw_df →
  ∃ records final_df,
    process_catalog files =
      Ok (lg ++ (INFO, BuildingCatalog) :: records ++
          [ (INFO, ProcessingFilters); (INFO, MergingDuplicates);
            (INFO, SortingByManufacturer);
            (INFO, Success (length (rows final_df))) ],
          Saved final_df) ∧
    length (rows final_df) = length (distinct_identifiers raw_df) ∧
    Forall2
      (fun item record =>
         match next_match (snd item) (columns raw_df) with
         | Some c => record = (INFO, Mapped (fst item) c)
         | None => record = (WARNING, FieldNotFound (fst item))
         end)
      MAPPING records.
Proof.
  intros _ _ Hload Hid.
  exists (map (field_record raw_df) MAPPING), (final_frame raw_df).
  split; [by apply process_catalog_closed|].
  split.
  { change (rows (final_frame raw_df)) with (final_rows raw_df).
    rewrite final_rows_perm. unfold merged_rows. rewrite length_map.
    by rewrite merged_keys_perm. }
  apply Forall2_fmap_r, Forall_Forall2_diag, Forall_forall.
  intros item Hitem. by apply field_record_spec.
Qed.

(** The log of the example run. *)
Lemma log_of_saving_run_witness :
  frames_of (reads_of example_files) = Some example_files ∧
  distinct_headers example_files ∧
  load_data example_files = (example_log, Some example_raw) ∧
  ID_COLUMN ∈ columns example_raw ∧
  ∃ records final_df,
    process_catalog example_files =
      Ok (example_log ++ (INFO, BuildingCatalog) :: records ++
          [ (INFO, ProcessingFilters); (INFO, MergingDuplicates);
            (INFO, SortingByManufacturer); (INFO, Success 3) ],
          Saved final_df) ∧
    length records = 12%nat.
Proof.
  assert (load_data example_files = (example_log, Some example_raw)) as Hl
    by (by vm_compute).
  split; [exact example_reads|]. split; [exact example_distinct_headers|].
  split; [exact Hl|]. split; [exact example_has_identifier|].
  destruct (log_of_saving_run _ example_files example_log example_raw
              example_reads example_distinct_headers Hl example_has_identifier)
    as (records & final_df & Hrun & Hlen & Hrec).
  assert (length (distinct_identifiers example_raw) = 3%nat) as H3
    by (by vm_compute).
  rewrite Hlen, H3 in Hrun.
  exists records, final_df. split; [exact Hrun|].
  by rewrite <- (Forall2_length _ _ _ Hrec).
Defined.

(** ** The same files twice *)

Lemma unique_app (l l' : list pystr) :
  unique (l ++ l') = unique l ++ filter (fun y => y ∉ l) (unique l').
Proof.
  induction l as [|x l IH].
  - simpl. rewrite filter_all; [done|].
    apply Forall_forall. intros y _. apply not_elem_of_nil.
  - simpl. f_equal. rewrite IH, filter_app, list_filter_filter. f_equal.
    apply list_filter_iff. intros y. rewrite not_elem_of_cons. tauto.
Qed.

Lemma unique_app_self (l : list pystr) : unique (l ++ l) = unique l.
Proof.
  rewrite unique_app, filter_none; [by rewrite app_nil_r|].
  apply Forall_forall. intros y Hy Hn. apply Hn. by apply elem_of_unique.
Qed.

Lemma concat_twice dataframes :
  concat (dataframes ++ dataframes) = doubled (concat dataframes).
Proof.
  unfold concat, doubled. cbn [columns rows].
  rewrite !flat_map_app, unique_app_self. done.
Qed.

Lemma first_valid_app xs ys :
  first_valid (xs ++ ys) =
  match first_valid xs with nan => first_valid ys | text s => text s end.
Proof.
  induction xs as [|x xs IH]; simpl app.
  - by destruct (first_valid ys).
  - rewrite !first_valid_cons. by destruct x.
Qed.

Lemma merged_keys_doubled raw_df :
  merged_keys (doubled raw_df) = merged_keys raw_df.
Proof.
  unfold merged_keys, group_keys, doubled. cbn [rows]. f_equal.
  change (map (fun r => loc (mkDataFrame (columns raw_df) ?rs) r ID_COLUMN))
    with (map (fun r => loc raw_df r ID_COLUMN)).
  rewrite map_app.
  change (omap text_of (?a ++ ?b)) with (omap text_of (a ++ b)).
  by rewrite omap_app, unique_app_self.
Qed.

Lemma group_of_doubled raw_df k :
  group_of (doubled raw_df) k = group_of raw_df k ++ group_of raw_df k.
Proof.
  unfold group_of, doubled. cbn [rows].
  exact (filter_app (fun r => loc raw_df r ID_COLUMN = text k) _ _).
Qed.

Lemma merged_value_doubled raw_df k field :
  merged_value (doubled raw_df) k field = merged_value raw_df k field.
Proof.
  unfold merged_value. rewrite group_of_doubled, map_app, first_valid_app.
  destruct (str_eqb field ID_COLUMN); [done|].
  change (fun r => canonical_value (doubled raw_df) r field)
    with (fun r => canonical_value raw_df r field).
  by destruct (first_valid _).
Qed.

Lemma final_rows_doubled `{ArgSort} raw_df :
  final_rows (doubled raw_df) = final_rows raw_df.
Proof.
  unfold final_rows, sort_keys, merged_rows.
  rewrite merged_keys_doubled.
  rewrite (map_ext _ _ (fun k => merged_value_doubled raw_df k MANUFACTURER)).
  f_equal. apply map_ext. intros k.
  apply map_ext. intros field. apply merged_value_doubled.
Qed.

(** X15: the merge absorbs repeated input: a run on the files taken twice
    ends as the run on the files, with the same saved frame. *)
Theorem files_twice `{ArgSort} files :
  outcome_of (process_catalog (files ++ files)) =
  outcome_of (process_catalog files).
Proof.
  rewrite !outcome_closed.
  assert (loaded_frames (files ++ files)
          = loaded_frames files ++ loaded_frames files) as ->.
  { unfold loaded_frames. by rewrite omap_app, map_app. }
  destruct (loaded_frames files) as [|df dfs] eqn:Ef; [done|].
  rewrite <- Ef. rewrite concat_twice.
  change (columns (doubled ?x)) with (columns x).
  assert (loaded_frames files ++ loaded_frames files ≠ []) as Hne
    by (by rewrite Ef).
  destruct (loaded_frames files ++ loaded_frames files); [done|].
  destruct (inb ID_COLUMN _); [|done].
  unfold final_frame. by rewrite final_rows_doubled.
Qed.
